(** * Mason's gain formula over a signal-flow graph: the loop-analysis core

    Shallow embedding of [src/datamodel.js] (the [Node] and [Edge] objects)
    and of the helper module that follows the graph builder in [src/sfg.js]
    ([findAllLoops], [dfsFindLoops], [calculateNumerator],
    [findForwardPaths], [getForwardPathsLoopgains], [extractPathEdges],
    [subtractNodes], [calculateDenominator], [calculateLoopGain],
    [findNonTouching]).

    Modelling decisions.
    - A [Node] is a mutable JavaScript object that the code compares by
      identity ([===], [Array.prototype.includes]) and updates in place
      ([splice] on the edge array of a copy), so nodes live in a store and
      are named by their location.
    - No function of the core assigns to a field of an [Edge] or compares
      two edges by identity: an edge is the record of its four fields.
    - Arrays that a function allocates for itself ([visited], [stack],
      [cycles], [paths], ...) are lists threaded through the calls;
      [push] appends at the end and [pop] removes the last element.
    - [undefined] where a node is expected is [None]; reading a property
      of [undefined] ends the computation with a [TypeError].
    - The two recursive searches take a bound on the depth of the
      recursion; the bounds used are shown to be never reached.
    - The symbolic-expression engine is not part of these sources; it is a
      parameter of the development. *)

From Stdlib Require Import ZArith Ring.
From stdpp Require Import list strings sorting.

Set Default Proof Using "Type".

(** ** Objects of [src/datamodel.js] *)

Module Edge.
Record t : Type := mk
  { weight : string; startNode : string; endNode : string; id : string }.

(** [function Edge (weight, startNode, endNode)]: the id is always
    [startNode+endNode] at construction. *)
Definition new (weight startNode endNode : string) : t :=
  mk weight startNode endNode (startNode +:+ endNode).

(** [Edge.prototype.copy] *)
Definition copy (this : t) : t :=
  new (weight this) (startNode this) (endNode this).

#[global] Instance eq_dec : EqDecision t.
Proof. solve_decision. Defined.
End Edge.

Module Node.
Record t : Type := mk
  { id : string; value : option string; outgoingEdges : list Edge.t }.

(** [function Node (id, value)] *)
Definition new (id : string) (value : option string) : t := mk id value [].

#[global] Instance eq_dec : EqDecision t.
Proof. solve_decision. Defined.
End Node.

(** ** The store of node objects *)

Abbreviation loc := nat (only parsing).
Abbreviation store := (list Node.t) (only parsing).

(** Reading through a reference.  A JavaScript reference always denotes a
    live object; the default is only there to make the read total. *)
Definition deref (h : store) (l : loc) : Node.t :=
  default (Node.new "" None) (h !! l).

(** Every object that is live in [h] is live and identical in [h']. *)
Definition preserved (h h' : store) : Prop :=
  ∀ (l : loc) (n : Node.t), h !! l = Some n → h' !! l = Some n.

(** ** Completions *)

Inductive result (A : Type) : Type :=
| Return (a : A)   (** normal completion *)
| TypeError        (** a property was read on [undefined] *)
| OutOfFuel.       (** the recursion bound of the embedding was reached *)
Arguments Return {A} a.
Arguments TypeError {A}.
Arguments OutOfFuel {A}.

Definition bindR {A B} (r : result A) (k : A → result B) : result B :=
  match r with
  | Return a => k a
  | TypeError => TypeError
  | OutOfFuel => OutOfFuel
  end.

Notation "'let*' x ':=' r 'in' k" := (bindR r (λ x, k))
  (at level 10, x pattern, r at level 100, k at level 200).

(** Store-passing computations that may complete abruptly. *)
Definition M (A : Type) : Type := store → store * result A.

Definition retM {A} (a : A) : M A := λ h, (h, Return a).

Definition bindM {A B} (m : M A) (k : A → M B) : M B :=
  λ h, match m h with
       | (h', Return a) => k a h'
       | (h', TypeError) => (h', TypeError)
       | (h', OutOfFuel) => (h', OutOfFuel)
       end.

Notation "'do*' x ':=' m 'in' k" := (bindM m (λ x, k))
  (at level 10, x pattern, m at level 100, k at level 200).

(** A computation that only reads the store. *)
Definition readM {A} (f : store → result A) : M A := λ h, (h, f h).

(** [new Node(...)]: the fresh object gets the next location. *)
Definition allocM (n : Node.t) : M loc := λ h, (h ++ [n], Return (length h)).

(** In-place update of the edge array of the object at [l]. *)
Definition set_outgoingEdges (l : loc) (es : list Edge.t) : M unit :=
  λ h, (<[l := Node.mk (Node.id (deref h l)) (Node.value (deref h l)) es]> h,
        Return tt).

(** [xs.forEach(x => body)] for a body with effects on the store. *)
Fixpoint forEachM {A} (body : A → M unit) (xs : list A) : M unit :=
  match xs with
  | [] => retM tt
  | x :: xs' => do* _ := body x in forEachM body xs'
  end.

(** [Node.prototype.copy]: a new node with the same id and value, then a
    copy of every outgoing edge pushed onto the new node's own array. *)
Definition Node_copy (this : loc) : M loc :=
  do* n := readM (λ h, Return (deref h this)) in
  do* copy := allocM (Node.new (Node.id n) (Node.value n)) in
  do* _ := forEachM
             (λ e, do* c := readM (λ h, Return (deref h copy)) in
                   set_outgoingEdges copy (Node.outgoingEdges c ++ [Edge.copy e]))
             (Node.outgoingEdges n) in
  retM copy.

(** [nodes.find(x => x.id === id)] *)
Definition findNode (h : store) (nodes : list loc) (id : string) : option loc :=
  List.find (λ x, String.eqb (Node.id (deref h x)) id) nodes.

(** ** Cycle enumeration *)

Record DfsState : Type := mkDfs
  { visited : list string;
    stack : list Edge.t;
    cycles : list (list Edge.t) }.

(** The body of the [for] loop of [dfsFindLoops], for the edges that are
    still to be examined; [rec] is the recursive call. *)
Fixpoint dfsEdges (rec : loc → DfsState → result DfsState)
    (h : store) (nodes : list loc) (startId : string)
    (edges : list Edge.t) (st : DfsState) : result DfsState :=
  match edges with
  | [] => Return st
  | edge :: rest =>
      match findNode h nodes (Edge.endNode edge) with
      | None => dfsEdges rec h nodes startId rest st            (* continue *)
      | Some v =>
          if String.eqb (Node.id (deref h v)) startId then
            (* push, copy the stack into cycles, pop, continue *)
            let pushed := stack st ++ [edge] in
            dfsEdges rec h nodes startId rest
              (mkDfs (visited st) (removelast pushed) (cycles st ++ [pushed]))
          else if negb (bool_decide (Node.id (deref h v) ∈ visited st)) then
            let* st' := rec v (mkDfs (visited st) (stack st ++ [edge]) (cycles st)) in
            dfsEdges rec h nodes startId rest st'
          else dfsEdges rec h nodes startId rest st
      end
  end.

Fixpoint dfsFindLoops (fuel : nat) (h : store) (nodes : list loc)
    (curr : loc) (startId : string) (st : DfsState) : result DfsState :=
  match fuel with
  | O => OutOfFuel
  | S fuel' =>
      let st1 := mkDfs (visited st ++ [Node.id (deref h curr)]) (stack st) (cycles st) in
      let* st2 := dfsEdges (λ v, dfsFindLoops fuel' h nodes v startId)
                    h nodes startId (Node.outgoingEdges (deref h curr)) st1 in
      if negb (String.eqb (Node.id (deref h curr)) startId)
      then Return (mkDfs (removelast (visited st2)) (removelast (stack st2)) (cycles st2))
      else Return st2
  end.

(** The [forEach] of [findAllLoops]: one search per node, all of them on
    the same [visited], [stack] and [cycles]. *)
Fixpoint findAllLoops_roots (fuel : nat) (h : store) (nodes roots : list loc)
    (st : DfsState) : result DfsState :=
  match roots with
  | [] => Return st
  | node :: roots' =>
      let* st' := dfsFindLoops fuel h nodes node (Node.id (deref h node)) st in
      findAllLoops_roots fuel h nodes roots' st'
  end.

(** A search never nests deeper than the number of nodes. *)
Definition dfsFuel (nodes : list loc) : nat := S (length nodes).

Definition findAllLoops_state (h : store) (nodes : list loc) : result DfsState :=
  findAllLoops_roots (dfsFuel nodes) h nodes nodes (mkDfs [] [] []).

Definition findAllLoops (h : store) (nodes : list loc) : result (list (list Edge.t)) :=
  let* st := findAllLoops_state h nodes in Return (cycles st).

(** ** Forward-path enumeration *)

(** A path is an array of node references; a reference that did not
    resolve is [undefined]. *)
Abbreviation path := (list (option loc)) (only parsing).

(** The [for] loop of [findForwardPaths] over the outgoing edges of
    [start]; [currPath] already ends with [start], and every branch gets
    its own copy of it. *)
Fixpoint forwardEdges (rec : option loc → list path → path → result (list path))
    (h : store) (nodes : list loc) (edges : list Edge.t)
    (paths : list path) (currPath : path) : result (list path) :=
  match edges with
  | [] => Return paths
  | edge :: rest =>
      let nextNode := findNode h nodes (Edge.endNode edge) in
      let currPathCopy := currPath in
      let* paths' := rec nextNode paths currPathCopy in
      forwardEdges rec h nodes rest paths' currPath
  end.

Fixpoint findForwardPaths (fuel : nat) (h : store) (start end_ : option loc)
    (nodes : list loc) (paths : list path) (currPath : path)
    : result (list path) :=
  match fuel with
  | O => OutOfFuel
  | S fuel' =>
      if bool_decide (start = end_) then
        Return (paths ++ [currPath ++ [start]])
      else if bool_decide (start ∈ currPath) then Return paths
      else
        match start with
        | None => TypeError                         (* start.outgoingEdges *)
        | Some s =>
            if (length (Node.outgoingEdges (deref h s)) <? 1)%nat then Return paths
            else
              forwardEdges (λ next, findForwardPaths fuel' h next end_ nodes)
                h nodes (Node.outgoingEdges (deref h s)) paths (currPath ++ [start])
        end
  end.

(** A forward path never holds more nodes than the graph. *)
Definition pathFuel (nodes : list loc) : nat := S (length nodes).

(** [extractPathEdges]: for every node of the path but the last, the first
    outgoing edge that ends at the next node of the path, or [undefined]
    when [find] has no match.  The callback of [find] reads
    [pathNodes[i+1].id], and runs only when there is an edge to test. *)
Fixpoint extractPathEdges (h : store) (pathNodes : path)
    : result (list (option Edge.t)) :=
  match pathNodes with
  | pn :: ((next :: _) as rest) =>
      let* pe :=
        match pn with
        | None => TypeError                         (* pn.outgoingEdges *)
        | Some p =>
            match Node.outgoingEdges (deref h p), next with
            | [], _ => Return None
            | _ :: _, None => TypeError             (* pathNodes[i+1].id *)
            | (_ :: _) as es, Some nx =>
                Return (List.find
                          (λ x, String.eqb (Edge.endNode x) (Node.id (deref h nx))) es)
            end
        end in
      let* pes := extractPathEdges h rest in
      Return (pe :: pes)
  | _ => Return []
  end.

(** [edges.findIndex(p)], [None] for [-1]. *)
Fixpoint findIndex {A} (p : A → bool) (xs : list A) : option nat :=
  match xs with
  | [] => None
  | x :: xs' => if p x then Some 0 else S <$> findIndex p xs'
  end.

(** ** The residual subgraph *)

(** One turn of the inner [forEach] of [subtractNodes]: remove from the
    copy [n] the first edge that ends at [nts].  The callback of
    [findIndex] reads [nts.id], and runs only when [n] still has an
    edge. *)
Definition pruneEdge (n : loc) (nts : option loc) : M unit :=
  λ h, match Node.outgoingEdges (deref h n), nts with
       | [], _ => (h, Return tt)
       | _ :: _, None => (h, TypeError)             (* nts.id *)
       | (_ :: _) as es, Some t =>
           match findIndex (λ e, String.eqb (Edge.endNode e) (Node.id (deref h t))) es with
           | None => (h, Return tt)
           | Some edge_i => set_outgoingEdges n (delete edge_i es) h   (* splice(edge_i, 1) *)
           end
       end.

(** The first [forEach] of [subtractNodes]. *)
Fixpoint copyNodes (originalNodes : list loc) (allnodes_copy : list loc)
    : M (list loc) :=
  match originalNodes with
  | [] => retM allnodes_copy
  | n :: rest =>
      do* c := Node_copy n in copyNodes rest (allnodes_copy ++ [c])
  end.

(** The second [forEach] of [subtractNodes], over the copies. *)
Fixpoint subtractLoop (nodesToSubtract : path) (allnodes_copy : list loc)
    (subgraph : list loc) : M (list loc) :=
  match allnodes_copy with
  | [] => retM subgraph
  | n :: rest =>
      do* keep := readM (λ h, Return
                    (negb (bool_decide (Some n ∈ nodesToSubtract))
                     && (0 <? length (Node.outgoingEdges (deref h n)))%nat)) in
      if keep : bool then
        do* _ := forEachM (pruneEdge n) nodesToSubtract in
        subtractLoop nodesToSubtract rest (subgraph ++ [n])
      else subtractLoop nodesToSubtract rest subgraph
  end.

Definition subtractNodes (originalNodes : list loc) (nodesToSubtract : path)
    : M (list loc) :=
  do* allnodes_copy := copyNodes originalNodes [] in
  subtractLoop nodesToSubtract allnodes_copy [].

(** ** Non-touching loop sets *)

(** A JavaScript [Map] with number keys: the entries in insertion order. *)
Abbreviation Map V := (list (nat * V)) (only parsing).

Fixpoint Map_get {V} (k : nat) (m : Map V) : option V :=
  match m with
  | [] => None
  | (k', v) :: m' => if (k' =? k)%nat then Some v else Map_get k m'
  end.

(** [set] keeps the position of a key that is present. *)
Fixpoint Map_set {V} (k : nat) (v : V) (m : Map V) : Map V :=
  match m with
  | [] => [(k, v)]
  | (k', v') :: m' =>
      if (k' =? k)%nat then (k, v) :: m' else (k', v') :: Map_set k v m'
  end.

Definition Map_delete {V} (k : nat) (m : Map V) : Map V :=
  filter (λ kv, kv.1 ≠ k) m.

(** [concatLoops.map(edge => edge.id).sort().toString()]: the ids in the
    order of their code units, joined by commas. *)
Definition canonicalKey (concatLoops : list Edge.t) : string :=
  String.concat "," (merge_sort String.le (Edge.id <$> concatLoops)).

(** [remainingNodes.some(node => currNodes.includes(node))] *)
Definition touching (remainingLoop currLoop : list Edge.t) : bool :=
  existsb (λ node, bool_decide (node ∈ (Edge.endNode <$> currLoop)))
          (Edge.endNode <$> remainingLoop).

(** The loop over [innerIndex]; the state is [existingGains] and
    [ithNonTouch]. *)
Fixpoint nonTouchingInner (currLoop : list Edge.t) (remaining : list (list Edge.t))
    (acc : list string * list (list Edge.t)) : list string * list (list Edge.t) :=
  match remaining with
  | [] => acc
  | remainingLoop :: rest =>
      let concatLoops := remainingLoop ++ currLoop in
      let loopGain := canonicalKey concatLoops in
      if bool_decide (loopGain ∈ acc.1) then nonTouchingInner currLoop rest acc
      else if negb (touching remainingLoop currLoop) then
        nonTouchingInner currLoop rest (acc.1 ++ [loopGain], acc.2 ++ [concatLoops])
      else nonTouchingInner currLoop rest acc
  end.

(** The loop over [j]. *)
Fixpoint nonTouchingLevel (allLoops prevSet : list (list Edge.t))
    (acc : list string * list (list Edge.t)) : list string * list (list Edge.t) :=
  match prevSet with
  | [] => acc
  | currLoop :: rest =>
      nonTouchingLevel allLoops rest (nonTouchingInner currLoop allLoops acc)
  end.

(** The loop over [i], with [n] turns left; it stops early at the first
    level without a combination. *)
Fixpoint nonTouchingLevels (n i : nat) (allLoops : list (list Edge.t))
    (nonTouchingLoops : Map (list (list Edge.t))) (existingGains : list string)
    : result (Map (list (list Edge.t))) :=
  match n with
  | O => Return nonTouchingLoops
  | S n' =>
      match Map_get (i - 1) nonTouchingLoops with
      | None => TypeError                           (* prevSet.length *)
      | Some prevSet =>
          let m1 := Map_set i [] nonTouchingLoops in
          let '(existingGains', ithNonTouch) :=
            nonTouchingLevel allLoops prevSet (existingGains, []) in
          (* the pushes went to the array that the map holds under [i] *)
          let m2 := Map_set i ithNonTouch m1 in
          match ithNonTouch with
          | [] => Return (Map_delete i m2)          (* delete, break *)
          | _ :: _ => nonTouchingLevels n' (S i) allLoops m2 existingGains'
          end
      end
  end.

Definition findNonTouching (allLoops : list (list Edge.t))
    : result (Map (list (list Edge.t))) :=
  let numLoops := length allLoops in
  let* m := nonTouchingLevels (numLoops - 1) 2 allLoops (Map_set 1 allLoops []) [] in
  Return (Map_delete 1 m).

(** ** The symbolic-expression engine *)

(** Modelled from the spec: the expression engine ([RWalgebra.js], required
    by the helper module but not among the sources).  The core uses
    [new Expression(n)], [new Expression()], [add], [subtract] and
    [multiply]; a number or a string passed to one of them is first turned
    into an expression ([parse] for a string). *)
Class Engine (Expression : Type) : Type :=
  { constant : Z → Expression;          (** [new Expression(n)], and a number argument *)
    blank : Expression;                 (** [new Expression()] *)
    add : Expression → Expression → Expression;
    subtract : Expression → Expression → Expression;
    multiply : Expression → Expression → Expression;
    parse : string → Expression }.      (** a string argument *)

(** Modelled from the spec: what the core expects of the engine.  The
    operations are those of a commutative ring, and the expression built
    without an argument is its zero. *)
Definition EngineLaws {Expression : Type} {engine : Engine Expression} : Prop :=
  ring_theory (constant 0) (constant 1) add multiply subtract
              (λ x, subtract (constant 0) x) (@eq Expression)
  ∧ blank = constant 0.

Section Gain.
Context {Expression : Type} {engine : Engine Expression}.

(** The argument of [multiply] in [calculateLoopGain]: the weight
    between parentheses. *)
Definition weightTerm (e : Edge.t) : Expression :=
  parse ("(" +:+ Edge.weight e +:+ ")").

(** [calculateLoopGain] on an array of edges. *)
Definition calculateLoopGain (edges : list Edge.t) : Expression :=
  fold_left (λ ex e, multiply ex (weightTerm e)) edges (constant 1).

(** [calculateLoopGain] on an array that may hold [undefined] (the
    result of [extractPathEdges]): reading [e.weight] fails there. *)
Fixpoint calculateLoopGain_from (ex : Expression) (edges : list (option Edge.t))
    : result Expression :=
  match edges with
  | [] => Return ex
  | None :: _ => TypeError                        (* e.weight *)
  | Some e :: rest => calculateLoopGain_from (multiply ex (weightTerm e)) rest
  end.

(** [calculateDenominator]; the callback of [Map.prototype.forEach]
    gets the value first and the key second, so [index] is the level. *)
Definition calculateDenominator (allLoops : list (list Edge.t))
    (nonTouching : Map (list (list Edge.t))) : Expression :=
  let denom := add (constant 0) (constant 1) in
  let denom := fold_left (λ denom loop, subtract denom (calculateLoopGain loop))
                 allLoops denom in
  fold_left
    (λ denom '(index, loops),
       let loopGain := fold_left (λ loopGain loop, add loopGain (calculateLoopGain loop))
                         loops blank in
       if (index mod 2 =? 0)%nat then add denom loopGain
       else subtract denom loopGain)
    nonTouching denom.

(** [getForwardPathsLoopgains] *)
Fixpoint getForwardPathsLoopgains (h : store) (paths : list path)
    : result (list Expression) :=
  match paths with
  | [] => Return []
  | p :: rest =>
      let* forwardEdges := extractPathEdges h p in
      let* flg := calculateLoopGain_from (constant 1) forwardEdges in
      let* flgs := getForwardPathsLoopgains h rest in
      Return (flg :: flgs)
  end.

(** The body of [paths.forEach] in [calculateNumerator]: the cofactor
    of one path. *)
Definition cofactor (nodes : list loc) (p : path) : M Expression :=
  do* subgraph := subtractNodes nodes p in
  do* allLoops := readM (λ h, findAllLoops h subgraph) in
  do* nonTouchingLoops := readM (λ _, findNonTouching allLoops) in
  retM (calculateDenominator allLoops nonTouchingLoops).

Fixpoint cofactors (nodes : list loc) (paths : list path)
    (delta_k : list Expression) : M (list Expression) :=
  match paths with
  | [] => retM delta_k
  | p :: rest =>
      do* d_k := cofactor nodes p in cofactors nodes rest (delta_k ++ [d_k])
  end.

(** The final loop of [calculateNumerator], for [i] from the head of both
    arrays on. *)
Fixpoint sumProducts (forwardLoopgains delta_k : list Expression)
    (numer : Expression) : Expression :=
  match forwardLoopgains, delta_k with
  | ex :: fs, d :: ds => sumProducts fs ds (add numer (multiply ex d))
  | _, _ => numer
  end.

(** [calculateNumerator]; [None] is the [undefined] of the branch that
    reports a mismatch. *)
Definition calculateNumerator (start end_ : string) (nodes : list loc)
    : M (option Expression) :=
  do* startNode := readM (λ h, Return (findNode h nodes start)) in
  do* endNode := readM (λ h, Return (findNode h nodes end_)) in
  do* paths := readM (λ h, findForwardPaths (pathFuel nodes) h startNode endNode
                             nodes [] []) in
  do* forwardLoopgains := readM (λ h, getForwardPathsLoopgains h paths) in
  do* delta_k := cofactors nodes paths [] in
  if (length forwardLoopgains =? length delta_k)%nat then
    retM (Some (sumProducts forwardLoopgains delta_k (constant 0)))
  else retM None.
End Gain.

(** The integers as an engine: every weight denotes the length of its
    text. *)
Definition Z_engine : Engine Z :=
  {| constant := λ n, n; blank := 0%Z; add := Z.add; subtract := Z.sub;
     multiply := Z.mul; parse := λ s, Z.of_nat (String.length s) |}.

(** ** Mason's formula in the words of the spec *)

Section Spec.
Context {Expression : Type} {engine : Engine Expression}.

(** The gain of a loop: the product of the weights of its edges. *)
Definition gainProduct (loop : list Edge.t) : Expression :=
  foldr (λ e acc, multiply (weightTerm e) acc) (constant 1) loop.

(** The sum of the gains of a list of loops or of combinations. *)
Definition gainSum (loops : list (list Edge.t)) : Expression :=
  foldr (λ loop acc, add (gainProduct loop) acc) (constant 0) loops.

(** The contribution of the levels: the sum of level [k] is added when
    [k] is even and subtracted when [k] is odd. *)
Definition levelSum (nonTouching : Map (list (list Edge.t))) : Expression :=
  foldr (λ '(k, loops) acc,
           add (if Nat.even k then gainSum loops
                else subtract (constant 0) (gainSum loops)) acc)
        (constant 0) nonTouching.

(** [1 - (sum of the loop gains) + (2-wise sums) - (3-wise sums) + ...] *)
Definition masonDelta (allLoops : list (list Edge.t))
    (nonTouching : Map (list (list Edge.t))) : Expression :=
  add (subtract (constant 1) (gainSum allLoops)) (levelSum nonTouching).
End Spec.

(** ** Recursion bounds *)

(** The nodes of the graph whose id is not marked in [visited]. *)
Definition unvisited (h : store) (nodes : list loc) (visited : list string) : nat :=
  length (filter (λ x, Node.id (deref h x) ∉ visited) nodes).

(** The nodes of the graph that are not on the current path. *)
Definition offPath (nodes : list loc) (currPath : path) : nat :=
  length (filter (λ x, Some x ∉ currPath) nodes).

(** What a call of [dfsFindLoops] on [curr] from the state [st] leaves
    behind when its completion is [r]: it returns, [visited] is as before
    plus the root's own mark when [curr] is the root, the stack is as
    before less the edge that led to a node other than the root, and no
    cycle recorded before is lost. *)
Definition dfsPost (h : store) (startId : string) (curr : loc) (st : DfsState)
    (r : result DfsState) : Prop :=
  ∃ st',
    r = Return st'
    ∧ visited st' = (if String.eqb (Node.id (deref h curr)) startId
                     then visited st ++ [Node.id (deref h curr)]
                     else visited st)
    ∧ stack st' = (if String.eqb (Node.id (deref h curr)) startId
                   then stack st else removelast (stack st))
    ∧ cycles st `prefix_of` cycles st'.

(** ** Frames *)

(** [h'] is [h] with more objects, and all its objects below [b] are
    untouched. *)
Definition stable (b : nat) (h h' : store) : Prop :=
  length h ≤ length h' ∧ ∀ l, l < b → h' !! l = h !! l.

(** [m] never writes below [b] when the objects below [b] are live. *)
Definition framed {A} (b : nat) (m : M A) : Prop :=
  ∀ h, b ≤ length h → stable b h (m h).1.

(** ** What [subtractNodes] builds *)

(** The object that [Node.prototype.copy] allocates for the node at [n]. *)
Definition copyOf (h : store) (n : loc) : Node.t :=
  Node.mk (Node.id (deref h n)) (Node.value (deref h n))
          (Edge.copy <$> Node.outgoingEdges (deref h n)).

(** [es] without its first edge that ends at [id], if there is one. *)
Definition pruneFirst (id : string) (es : list Edge.t) : list Edge.t :=
  match findIndex (λ e, String.eqb (Edge.endNode e) id) es with
  | Some edge_i => delete edge_i es
  | None => es
  end.

(** [es] after one such removal for every node of the path, in order. *)
Definition prunedEdges (h : store) (p : list loc) (es : list Edge.t)
    : list Edge.t :=
  fold_left (λ es t, pruneFirst (Node.id (deref h t)) es) p es.

(** The objects that [subtractNodes] adds to the store for the nodes [ns]
    when the next free location is [b], and the locations that it returns:
    every node gets a copy; a copy with an edge is pruned and returned,
    whether its node is on the path [p] or not. *)
Fixpoint residualOf (h : store) (p : list loc) (b : loc) (ns : list loc)
    : list Node.t * list loc :=
  match ns with
  | [] => ([], [])
  | n :: rest =>
      let '(objs, subgraph) := residualOf h p (S b) rest in
      match Node.outgoingEdges (copyOf h n) with
      | [] => (copyOf h n :: objs, subgraph)
      | _ :: _ =>
          (Node.mk (Node.id (deref h n)) (Node.value (deref h n))
                   (prunedEdges h p (Node.outgoingEdges (copyOf h n))) :: objs,
           b :: subgraph)
      end
  end.

(** ** Graphs without unresolved references *)

(** Every edge of every node ends at a node of the graph. *)
Definition noDangling (h : store) (nodes : list loc) : Prop :=
  Forall (λ x, Forall (λ e, is_Some (findNode h nodes (Edge.endNode e)))
                      (Node.outgoingEdges (deref h x)))
         nodes.

(** A path of resolved nodes in which every node has an edge that ends at
    the id of the next one. *)
Fixpoint linked (h : store) (p : path) : Prop :=
  match p with
  | [] => True
  | pn :: rest =>
      match pn, rest with
      | Some a, Some b :: _ =>
          ∃ e, e ∈ Node.outgoingEdges (deref h a)
               ∧ Edge.endNode e = Node.id (deref h b)
      | Some _, [] => True
      | _, _ => False
      end ∧ linked h rest
  end.

(** ** Example graphs *)

(** The chain 1 -> 2 -> 3 with gains [a] and [b] and a self-loop of gain
    [f] at node 2; [selfLoopFirst] tells which of the two edges of node 2
    was added first. *)
Definition chain (a b f : string) (selfLoopFirst : bool) : store :=
  [ Node.mk "1" None [Edge.new a "1" "2"];
    Node.mk "2" None
      (if selfLoopFirst then [Edge.new f "2" "2"; Edge.new b "2" "3"]
       else [Edge.new b "2" "3"; Edge.new f "2" "2"]);
    Node.mk "3" None [] ].

(** Node 1 with an edge to a node 9 that is not in the graph, then an edge
    to node 2; node 2 with an edge back to node 1. *)
Definition danglingGraph : store :=
  [ Node.mk "1" None [Edge.new "c" "1" "9"; Edge.new "a" "1" "2"];
    Node.mk "2" None [Edge.new "b" "2" "1"] ].

(** The chain 1 -> 2 -> 3 with two parallel self-loops at node 2, the
    second with the suffix that the graph builder gives it. *)
Definition twoSelfLoops : store :=
  [ Node.mk "1" None [Edge.new "a" "1" "2"];
    Node.mk "2" None
      [ Edge.new "f" "2" "2"; Edge.mk "g" "2" "2" "22_1"; Edge.new "b" "2" "3" ];
    Node.mk "3" None [] ].

(** The forward path 1 -> 2 -> 3 of the graphs above. *)
Definition path123 : path := [Some 0; Some 1; Some 2].


(** Two parallel edges from node 1 to node 2, the second with the suffix
    that the graph builder gives it. *)
Definition parallelNode : Node.t :=
  Node.mk "1" None
    [ Edge.mk "a" "1" "2" "12"; Edge.mk "c" "1" "2" "12_1" ].


(** ** Walks *)

(** [es] is a walk from the node [from] to the node [to]: every edge is
    an outgoing edge of the node it leaves, and its destination resolves
    to the node that the next edge leaves. *)
Fixpoint walk (h : store) (nodes : list loc) (from : loc) (es : list Edge.t)
    (to : loc) : Prop :=
  match es with
  | [] => from = to
  | e :: rest =>
      e ∈ Node.outgoingEdges (deref h from)
      ∧ ∃ v, findNode h nodes (Edge.endNode e) = Some v ∧ walk h nodes v rest to
  end.

(** [c] is a walk from [root] followed by one edge that ends at the id of
    [root]. *)
Definition closedWalk (h : store) (nodes : list loc) (root : loc)
    (c : list Edge.t) : Prop :=
  ∃ es e curr,
    c = es ++ [e]
    ∧ walk h nodes root es curr
    ∧ e ∈ Node.outgoingEdges (deref h curr)
    ∧ Edge.endNode e = Node.id (deref h root).

(** A cycle as [findAllLoops] reports it: a closed walk from a node of the
    graph in which no two edges end at the same id. *)
Definition simpleCycle (h : store) (nodes : list loc) (c : list Edge.t) : Prop :=
  ∃ root, root ∈ nodes
          ∧ closedWalk h nodes root c
          ∧ NoDup (Edge.endNode <$> c).

(** The state of the search from [root] while the edges of [curr] are
    examined: the stack is a walk from the root to [curr], the marks made
    since the search began are the id of the root and the ends of the edges
    on the stack, all different, and the cycles recorded are simple
    cycles. *)
Definition dfsInv (h : store) (nodes : list loc) (root : loc) (marked : list string)
    (curr : loc) (st : DfsState) : Prop :=
  walk h nodes root (stack st) curr
  ∧ visited st = marked ++ Node.id (deref h root) :: (Edge.endNode <$> stack st)
  ∧ NoDup (Node.id (deref h root) :: (Edge.endNode <$> stack st))
  ∧ Forall (simpleCycle h nodes) (cycles st).

(** A forward path as [findForwardPaths] reports it: it begins with
    [start], ends with [end_], holds no node twice, and every node has an
    edge that ends at the id of the next one. *)
Definition simplePath (h : store) (start end_ : option loc) (p : path) : Prop :=
  head p = Some start ∧ last p = Some end_ ∧ NoDup p ∧ linked h p.

(** ** Non-touching combinations *)

(** [c] is the concatenation of [k] loops of [allLoops] of which no two
    touch. *)
Definition nonTouchingSet (allLoops : list (list Edge.t)) (k : nat)
    (c : list Edge.t) : Prop :=
  ∃ ls, length ls = k
        ∧ c = concat ls
        ∧ Forall (λ l, l ∈ allLoops) ls
        ∧ ForallOrdPairs (λ a b, touching a b = false) ls.

(** The state of the loops of one level of [findNonTouching] that builds
    the combinations of [k] loops: [existingGains] is what it was when the
    level began followed by the keys of the combinations of the level, in
    order, it has no key twice, and the combinations of the level are
    non-touching sets. *)
Definition levelInv (allLoops : list (list Edge.t)) (k : nat) (before : list string)
    (acc : list string * list (list Edge.t)) : Prop :=
  acc.1 = before ++ (canonicalKey <$> acc.2)
  ∧ NoDup acc.1
  ∧ Forall (nonTouchingSet allLoops k) acc.2.

(** ** The entry points of [src/sfg.js]

    [computeMasons] and [computeLoopGain] write to the console; what they
    write is not part of the embedding. *)

(** Modelled from the spec: the methods of an expression that are used for
    presentation only ([RWalgebra.js], not among the sources); each gives
    the text of a formula. *)
Class Presentation (Expression : Type) : Type :=
  { phase : Expression → string;
    magnitude : Expression → string;
    bodeMag : Expression → string }.

Module Bode.
Record t : Type := mk { phase : string; magnitude : string }.
End Bode.

(** The object that [computeMasons] returns. *)
Module Masons.
Record t (Expression : Type) : Type := mk
  { n : Expression; d : Expression; bode : Bode.t }.
Arguments mk {Expression} n d bode.
Arguments n {Expression} t.
Arguments d {Expression} t.
Arguments bode {Expression} t.
End Masons.

(** The object that [computeLoopGain] returns. *)
Module LoopGain.
Record t : Type := mk { bode : Bode.t }.
End LoopGain.

Section EntryPoints.
Context {Expression : Type} {engine : Engine Expression}
        {presentation : Presentation Expression}.

(** [computeMasons]: the denominator first, then the numerator, then the
    two formulas, built from the numerator before the denominator. *)
Definition computeMasons (nodes : list loc) (start end_ : string)
    : M (Masons.t Expression) :=
  do* allLoops := readM (λ h, findAllLoops h nodes) in
  do* nonTouchingLoops := readM (λ _, findNonTouching allLoops) in
  let denom := calculateDenominator allLoops nonTouchingLoops in
  do* numer := calculateNumerator start end_ nodes in
  match numer with
  | None => readM (λ _, TypeError)                  (* numer.phase() *)
  | Some numer =>
      let bodePhase := phase numer +:+ " - " +:+ phase denom in
      let bodeMag :=
        "20 * log10 ( (" +:+ magnitude numer +:+ ") / ("
          +:+ magnitude denom +:+ "))" in
      retM (Masons.mk numer denom (Bode.mk bodePhase bodeMag))
  end.

(** [computeLoopGain]: it reads the graph and allocates nothing. *)
Definition computeLoopGain (h : store) (nodes : list loc) : result LoopGain.t :=
  let* allLoops := findAllLoops h nodes in
  let* nonTouchingLoops := findNonTouching allLoops in
  let denom := calculateDenominator allLoops nonTouchingLoops in
  let loopGain := subtract denom (constant 1) in
  Return (LoopGain.mk (Bode.mk (phase loopGain) (bodeMag loopGain))).
End EntryPoints.

(** The integers as expressions to present: the phase of a number is 0 or
    180, its magnitude is written as 0 or 1. *)
Definition Z_presentation : Presentation Z :=
  {| phase := λ z, if (0 <=? z)%Z then "0" else "180";
     magnitude := λ z, if (z =? 0)%Z then "0" else "1";
     bodeMag := λ z, if (z =? 0)%Z then "0" else "1" |}.

(** ** The numerator in the words of the spec *)

Section NumeratorSpec.
Context {Expression : Type} {engine : Engine Expression}.

(** The sum, over the forward paths, of the gain of the path times its
    cofactor. *)
Definition gainCofactorSum (forwardLoopgains delta_k : list Expression)
    : Expression :=
  foldr (λ '(p_k, d_k) acc, add (multiply p_k d_k) acc) (constant 0)
        (zip forwardLoopgains delta_k).
End NumeratorSpec.

(** The id that the constructor gives: the source followed by the
    destination. *)
Definition constructorId (e : Edge.t) : Prop :=
  Edge.id e = Edge.startNode e +:+ Edge.endNode e.

(** * Properties *)

(** ** The store *)

Lemma deref_alloc (h : store) (n : Node.t) : deref (h ++ [n]) (length h) = n.
Proof. unfold deref. by rewrite list_lookup_middle. Qed.

Lemma insert_alloc (h : store) (n n' : Node.t) :
  <[length h := n']> (h ++ [n]) = h ++ [n'].
Proof.
  rewrite insert_app_r_alt by lia. by rewrite Nat.sub_diag.
Qed.

(** The copy loop of [Node_copy] fills the edge array of the fresh node
    from left to right. *)
Lemma Node_copy_push (h : store) (id : string) (v : option string)
    (es acc : list Edge.t) :
  forEachM
    (λ e, do* c := readM (λ h', Return (deref h' (length h))) in
          set_outgoingEdges (length h) (Node.outgoingEdges c ++ [Edge.copy e]))
    es (h ++ [Node.mk id v acc])
  = (h ++ [Node.mk id v (acc ++ (Edge.copy <$> es))], Return tt).
Proof.
  revert acc. induction es as [|e es IH]; intros acc; simpl.
  - by rewrite app_nil_r.
  - unfold bindM at 1. unfold bindM at 1. unfold readM, set_outgoingEdges.
    rewrite deref_alloc, insert_alloc. simpl.
    rewrite IH. by rewrite <- app_assoc.
Qed.

(** [Node.prototype.copy] as one allocation. *)
Lemma Node_copy_eq (h : store) (this : loc) :
  Node_copy this h
  = (h ++ [Node.mk (Node.id (deref h this)) (Node.value (deref h this))
             (Edge.copy <$> Node.outgoingEdges (deref h this))],
     Return (length h)).
Proof.
  unfold Node_copy, bindM at 1, readM, bindM at 1, allocM, bindM at 1, Node.new.
  rewrite (Node_copy_push h _ _ _ []). reflexivity.
Qed.

(** C10.  [Edge.prototype.copy] rebuilds the id from the two endpoints
    whatever id the edge carried, and keeps weight and endpoints;
    [Node.prototype.copy] copies every outgoing edge that way, so two
    parallel edges of a node (same source, same destination) have copies
    with one and the same id, and a suffix that told them apart is lost.
    The first loop of [subtractNodes] makes its copies with
    [Node.prototype.copy]. *)
Theorem Edge_copy_recomputes_id (h : store) (this : loc) (e1 e2 : Edge.t) :
  e1 ∈ Node.outgoingEdges (deref h this) →
  e2 ∈ Node.outgoingEdges (deref h this) →
  Edge.startNode e1 = Edge.startNode e2 →
  Edge.endNode e1 = Edge.endNode e2 →
  Edge.id (Edge.copy e1) = Edge.startNode e1 +:+ Edge.endNode e1
  ∧ Edge.weight (Edge.copy e1) = Edge.weight e1
  ∧ Edge.startNode (Edge.copy e1) = Edge.startNode e1
  ∧ Edge.endNode (Edge.copy e1) = Edge.endNode e1
  ∧ Edge.id (Edge.copy e1) = Edge.id (Edge.copy e2)
  ∧ ∃ h' copy,
      Node_copy this h = (h', Return copy)
      ∧ Node.outgoingEdges (deref h' copy)
        = Edge.copy <$> Node.outgoingEdges (deref h this)
      ∧ Edge.copy e1 ∈ Node.outgoingEdges (deref h' copy)
      ∧ Edge.copy e2 ∈ Node.outgoingEdges (deref h' copy)
      ∧ copyNodes [this] [] h = (h', Return [copy]).
Proof.
  intros Hin1 Hin2 Hs He.
  repeat split; try reflexivity.
  - unfold Edge.copy, Edge.new. simpl. by rewrite Hs, He.
  - eexists _, _. rewrite Node_copy_eq. split; [reflexivity|].
    rewrite deref_alloc. simpl.
    split; [reflexivity|]. split; [by apply list_elem_of_fmap_2|].
    split; [by apply list_elem_of_fmap_2|].
    unfold bindM. by rewrite Node_copy_eq.
Qed.

Lemma Edge_copy_recomputes_id_witness :
  Edge.id (Edge.mk "c" "1" "2" "12_1") ≠ Edge.id (Edge.mk "a" "1" "2" "12")
  ∧ Edge.id (Edge.copy (Edge.mk "c" "1" "2" "12_1")) = "12"
  ∧ Edge.id (Edge.copy (Edge.mk "a" "1" "2" "12")) = "12".
Proof.
  pose proof (Edge_copy_recomputes_id [parallelNode] 0
                (Edge.mk "c" "1" "2" "12_1") (Edge.mk "a" "1" "2" "12")) as W.
  destruct W as (Hid & _ & _ & _ & Heq & _).
  - apply list_elem_of_further, list_elem_of_here.
  - apply list_elem_of_here.
  - reflexivity.
  - reflexivity.
  - split; [discriminate|]. split; [exact Hid|]. rewrite <- Heq. exact Hid.
Defined.

(** ** The denominator *)

Section Denominator.
Context {Expression : Type} {engine : Engine Expression}.
Hypothesis laws : EngineLaws.

Local Lemma engine_ring :
  ring_theory (constant 0) (constant 1) add multiply subtract
              (λ x, subtract (constant 0) x) (@eq Expression).
Proof using laws. exact (proj1 laws). Qed.

Add Ring engine_ring_inst : engine_ring.

Lemma calculateLoopGain_from_acc (ex : Expression) (edges : list Edge.t) :
  fold_left (λ ex e, multiply ex (weightTerm e)) edges ex
  = multiply ex (gainProduct edges).
Proof using laws.
  revert ex. induction edges as [|e es IH]; intros ex; simpl.
  - ring.
  - rewrite IH. ring.
Qed.

(** The gain that the code computes is the product of the weights. *)
Lemma calculateLoopGain_product (edges : list Edge.t) :
  calculateLoopGain edges = gainProduct edges.
Proof using laws.
  unfold calculateLoopGain. rewrite calculateLoopGain_from_acc. ring.
Qed.

Lemma subtract_gains_acc (denom : Expression) (loops : list (list Edge.t)) :
  fold_left (λ denom loop, subtract denom (calculateLoopGain loop)) loops denom
  = subtract denom (gainSum loops).
Proof using laws.
  revert denom. induction loops as [|l ls IH]; intros denom; simpl.
  - ring.
  - rewrite IH, calculateLoopGain_product. ring.
Qed.

Lemma add_gains_acc (loopGain : Expression) (loops : list (list Edge.t)) :
  fold_left (λ loopGain loop, add loopGain (calculateLoopGain loop)) loops loopGain
  = add loopGain (gainSum loops).
Proof using laws.
  revert loopGain. induction loops as [|l ls IH]; intros loopGain; simpl.
  - ring.
  - rewrite IH, calculateLoopGain_product. ring.
Qed.

Lemma index_even (index : nat) : (index mod 2 =? 0)%nat = Nat.even index.
Proof.
  destruct (Nat.even index) eqn:E.
  - apply Nat.eqb_eq. apply Nat.even_spec in E. destruct E as [k ->].
    rewrite Nat.mul_comm. apply Nat.Div0.mod_mul.
  - apply Nat.eqb_neq. intros Hm.
    apply Nat.Div0.mod_divides in Hm. destruct Hm as [k ->].
    rewrite Nat.even_mul in E. discriminate.
Qed.

Lemma levels_acc (denom : Expression) (nonTouching : Map (list (list Edge.t))) :
  fold_left
    (λ denom '(index, loops),
       let loopGain := fold_left (λ loopGain loop, add loopGain (calculateLoopGain loop))
                         loops blank in
       if (index mod 2 =? 0)%nat then add denom loopGain
       else subtract denom loopGain)
    nonTouching denom
  = add denom (levelSum nonTouching).
Proof using laws.
  revert denom. induction nonTouching as [|[k loops] nt IH]; intros denom.
  - simpl. ring.
  - cbn [fold_left foldr levelSum]. rewrite IH, add_gains_acc, index_even, (proj2 laws).
    fold (levelSum nt).
    destruct (Nat.even k); ring.
Qed.

(** C2.  Over an engine that is a commutative ring,
    [calculateDenominator] is one minus the sum of the gains of all
    loops, plus, for every level [k] of the non-touching map, the sum of
    the gains of that level when [k] is even and minus that sum when [k]
    is odd; a gain is the product of the weights of the edges. *)
Theorem calculateDenominator_mason (allLoops : list (list Edge.t))
    (nonTouching : Map (list (list Edge.t))) :
  calculateDenominator allLoops nonTouching = masonDelta allLoops nonTouching
  ∧ ∀ loop, calculateLoopGain loop = gainProduct loop.
Proof using laws.
  split; [|apply calculateLoopGain_product].
  unfold calculateDenominator, masonDelta.
  rewrite levels_acc, subtract_gains_acc. ring.
Qed.
End Denominator.

(** ** Non-touching loop sets *)

Section MapFacts.
Context {V : Type}.
Implicit Types (m : Map V) (k : nat) (v : V).

Lemma Map_get_is_Some k m : k ∈ m.*1 → is_Some (Map_get k m).
Proof.
  induction m as [|[k' v'] m IH]; simpl; intros Hin.
  - by apply elem_of_nil in Hin.
  - destruct (Nat.eqb_spec k' k) as [->|Hne]; [by eexists|].
    apply IH. apply elem_of_cons in Hin as [->|Hin]; [done|exact Hin].
Qed.

Lemma Map_set_fresh k v m : k ∉ m.*1 → Map_set k v m = m ++ [(k, v)].
Proof.
  induction m as [|[k' v'] m IH]; simpl; intros Hnin; [done|].
  apply not_elem_of_cons in Hnin as [Hne Hnin].
  destruct (Nat.eqb_spec k' k) as [->|_]; [done|].
  by rewrite IH.
Qed.

Lemma Map_set_last k v w m :
  k ∉ m.*1 → Map_set k v (m ++ [(k, w)]) = m ++ [(k, v)].
Proof.
  induction m as [|[k' v'] m IH]; simpl; intros Hnin.
  - by rewrite Nat.eqb_refl.
  - apply not_elem_of_cons in Hnin as [Hne Hnin].
    destruct (Nat.eqb_spec k' k) as [->|_]; [done|].
    by rewrite IH.
Qed.

Lemma Map_delete_notin k m : k ∉ m.*1 → Map_delete k m = m.
Proof.
  unfold Map_delete.
  induction m as [|[k' v'] m IH]; simpl; intros Hnin; [done|].
  apply not_elem_of_cons in Hnin as [Hne Hnin].
  rewrite filter_cons_True by (simpl; congruence).
  by rewrite IH.
Qed.

Lemma Map_delete_last k v m : k ∉ m.*1 → Map_delete k (m ++ [(k, v)]) = m.
Proof.
  intros Hnin. unfold Map_delete. rewrite filter_app.
  fold (Map_delete k m). rewrite Map_delete_notin by done.
  rewrite filter_cons_False by (simpl; intros Hne; by apply Hne).
  rewrite filter_nil. apply app_nil_r.
Qed.

Lemma Map_delete_head k v m : k ∉ m.*1 → Map_delete k ((k, v) :: m) = m.
Proof.
  intros Hnin. unfold Map_delete.
  rewrite filter_cons_False by (simpl; intros Hne; by apply Hne).
  by apply Map_delete_notin.
Qed.
End MapFacts.

Lemma nonTouchingLevels_levels (n i : nat) (allLoops : list (list Edge.t))
    (levels : Map (list (list Edge.t))) (existingGains : list string) :
  2 ≤ i →
  levels.*1 = seq 2 (i - 2) →
  Forall (λ kv, kv.2 ≠ []) levels →
  ∃ levels',
    nonTouchingLevels n i allLoops ((1, allLoops) :: levels) existingGains
    = Return ((1, allLoops) :: levels')
    ∧ levels'.*1 = seq 2 (length levels')
    ∧ Forall (λ kv, kv.2 ≠ []) levels'.
Proof.
  revert i levels existingGains.
  induction n as [|n IH]; intros i levels existing Hi Hkeys Hne.
  - exists levels. split; [done|]. split; [|done].
    rewrite Hkeys. f_equal.
    rewrite <- (length_fmap fst levels), Hkeys. by rewrite length_seq.
  - assert (Hlen : length levels = i - 2).
    { rewrite <- (length_fmap fst levels), Hkeys. by rewrite length_seq. }
    assert (Hfresh : i ∉ levels.*1).
    { rewrite Hkeys. intros Hin%elem_of_seq. lia. }
    assert (Hget : is_Some (Map_get (i - 1) ((1, allLoops) :: levels))).
    { cbn [Map_get]. destruct (Nat.eqb_spec 1 (i - 1)) as [_|Hne1]; [by eexists|].
      apply Map_get_is_Some. rewrite Hkeys. apply elem_of_seq. lia. }
    destruct Hget as [prevSet Hget].
    cbn [nonTouchingLevels]. rewrite Hget.
    destruct (nonTouchingLevel allLoops prevSet (existing, [])) as [existing' ith].
    assert (Hset1 : Map_set i [] ((1, allLoops) :: levels)
                    = (1, allLoops) :: (levels ++ [(i, [])])).
    { cbn [Map_set]. destruct (Nat.eqb_spec 1 i) as [?|_]; [lia|].
      by rewrite Map_set_fresh. }
    rewrite Hset1.
    assert (Hset2 : Map_set i ith ((1, allLoops) :: (levels ++ [(i, [])]))
                    = (1, allLoops) :: (levels ++ [(i, ith)])).
    { cbn [Map_set]. destruct (Nat.eqb_spec 1 i) as [?|_]; [lia|].
      by rewrite Map_set_last. }
    rewrite Hset2.
    destruct ith as [|c ith].
    + exists levels. split; [|split; [|done]].
      * f_equal. unfold Map_delete.
        rewrite filter_cons_True by (simpl; lia).
        f_equal. by apply Map_delete_last.
      * by rewrite Hkeys, Hlen.
    + apply IH; [lia| |].
      * rewrite fmap_app, Hkeys.
        replace (S i - 2) with (S (i - 2)) by lia.
        rewrite seq_S. cbn [fmap list_fmap fst]. do 2 f_equal. lia.
      * apply Forall_app. split; [done|]. by repeat constructor.
Qed.

(** [findNonTouching] returns for every list of cycles, with the levels
    2, 3, ... in a row and none of them empty. *)
Lemma findNonTouching_shape (allLoops : list (list Edge.t)) :
  ∃ m,
    findNonTouching allLoops = Return m
    ∧ m.*1 = seq 2 (length m)
    ∧ Forall (λ kv, kv.2 ≠ []) m.
Proof.
  destruct (nonTouchingLevels_levels (length allLoops - 1) 2 allLoops [] [])
    as (levels & Hrun & Hkeys & Hne); [lia|done|done|].
  exists levels. unfold findNonTouching. simpl. rewrite Hrun. simpl.
  split; [|done].
  f_equal. apply Map_delete_head. rewrite Hkeys. intros Hin%elem_of_seq. lia.
Qed.

Lemma Map_get_keys {V} (k : nat) (m : Map V) : is_Some (Map_get k m) ↔ k ∈ m.*1.
Proof.
  split; [|apply Map_get_is_Some].
  intros [v Hv]. induction m as [|[k' v'] m IH]; [done|].
  simpl in *. destruct (Nat.eqb_spec k' k) as [->|_]; [left|right; auto].
Qed.

(** C6.  For every list of cycles [findNonTouching] returns a map whose
    keys are exactly [2, 3, ..., 1 + size], in that order, and whose
    levels are all non-empty: no key is below 2, no level is empty, and
    since the keys have no gap, no level lies above a level that is
    missing (the loop is left at the first level without a combination,
    and that level is deleted). *)
Theorem findNonTouching_levels (allLoops : list (list Edge.t)) :
  ∃ m,
    findNonTouching allLoops = Return m
    ∧ m.*1 = seq 2 (length m)
    ∧ Forall (λ kv, kv.2 ≠ []) m
    ∧ (∀ k, is_Some (Map_get k m) ↔ 2 ≤ k < 2 + length m)
    ∧ (∀ k k', 2 ≤ k ≤ k' → Map_get k m = None → Map_get k' m = None).
Proof.
  destruct (findNonTouching_shape allLoops) as (m & Hrun & Hkeys & Hne).
  assert (Hrange : ∀ k, is_Some (Map_get k m) ↔ 2 ≤ k < 2 + length m).
  { intros k. rewrite Map_get_keys, Hkeys. apply elem_of_seq. }
  exists m. repeat (split; [done|]).
  intros k k' Hk Hnone. apply eq_None_not_Some. intros Hsome%Hrange.
  apply eq_None_not_Some in Hnone. apply Hnone, Hrange. lia.
Qed.

(** The key of a combination does not depend on the order in which its
    members were concatenated. *)
Lemma canonicalKey_Permutation (c1 c2 : list Edge.t) :
  c1 ≡ₚ c2 → canonicalKey c1 = canonicalKey c2.
Proof.
  intros Hp. unfold canonicalKey. f_equal.
  apply (Sorted_unique String.le).
  - apply Sorted_merge_sort, _.
  - apply Sorted_merge_sort, _.
  - rewrite !merge_sort_Permutation. by rewrite Hp.
Qed.

Lemma touching_true (remainingLoop currLoop : list Edge.t) (e : Edge.t) :
  e ∈ remainingLoop →
  Edge.endNode e ∈ Edge.endNode <$> currLoop →
  touching remainingLoop currLoop = true.
Proof.
  intros Hin Hend. unfold touching. apply existsb_exists.
  exists (Edge.endNode e). split.
  - apply list_elem_of_In. by apply list_elem_of_fmap_2.
  - by apply bool_decide_eq_true.
Qed.

Lemma touching_self (loop : list Edge.t) : loop ≠ [] → touching loop loop = true.
Proof.
  destruct loop as [|e loop]; [done|]. intros _.
  apply (touching_true _ _ e); [left|]. simpl. left.
Qed.

Lemma touching_false (remainingLoop currLoop : list Edge.t) :
  (∀ x, x ∈ Edge.endNode <$> remainingLoop → x ∉ Edge.endNode <$> currLoop) →
  touching remainingLoop currLoop = false.
Proof.
  intros Hdisj. unfold touching. apply not_true_is_false.
  intros (x & Hin & Hx)%existsb_exists.
  apply bool_decide_eq_true in Hx. apply list_elem_of_In in Hin.
  by apply (Hdisj x).
Qed.

Lemma findNonTouching_pair (L1 L2 : list Edge.t) :
  L1 ≠ [] → L2 ≠ [] →
  (∀ x, x ∈ Edge.endNode <$> L2 → x ∉ Edge.endNode <$> L1) →
  findNonTouching [L1; L2] = Return [(2, [L2 ++ L1])].
Proof.
  intros H1 H2 Hdisj.
  assert (Hfirst : nonTouchingInner L1 [L1; L2] ([], [])
                   = ([canonicalKey (L2 ++ L1)], [L2 ++ L1])).
  { cbn [nonTouchingInner fst snd].
    rewrite (bool_decide_eq_false_2 (canonicalKey (L1 ++ L1) ∈ []))
      by apply not_elem_of_nil.
    rewrite (touching_self L1 H1). cbn [negb].
    rewrite (bool_decide_eq_false_2 (canonicalKey (L2 ++ L1) ∈ []))
      by apply not_elem_of_nil.
    by rewrite (touching_false L2 L1 Hdisj). }
  assert (Hsecond : nonTouchingInner L2 [L1; L2]
                      ([canonicalKey (L2 ++ L1)], [L2 ++ L1])
                    = ([canonicalKey (L2 ++ L1)], [L2 ++ L1])).
  { cbn [nonTouchingInner fst snd].
    rewrite (canonicalKey_Permutation (L1 ++ L2) (L2 ++ L1))
      by apply Permutation_app_comm.
    rewrite (bool_decide_eq_true_2
               (canonicalKey (L2 ++ L1) ∈ [canonicalKey (L2 ++ L1)])) by left.
    rewrite (touching_self L2 H2). cbn [negb].
    by destruct (bool_decide _). }
  unfold findNonTouching.
  cbn [length Nat.sub nonTouchingLevels Map_set Map_get Nat.eqb bindR].
  cbn [nonTouchingLevel]. rewrite Hfirst, Hsecond. reflexivity.
Qed.

(** C5.  When the cycle list is two non-empty loops without a common
    node (no edge of one ends where an edge of the other ends),
    [findNonTouching] returns the map with the single level 2 that holds
    exactly one combination, the edges of the loop found second followed
    by those of the loop found first, whichever loop was found first; the
    other concatenation has the same canonical key (the sorted edge ids),
    which is how its duplicate is rejected. *)
Theorem findNonTouching_two_disjoint (L1 L2 : list Edge.t) :
  L1 ≠ [] → L2 ≠ [] →
  (∀ x, x ∈ Edge.endNode <$> L1 → x ∉ Edge.endNode <$> L2) →
  findNonTouching [L1; L2] = Return [(2, [L2 ++ L1])]
  ∧ findNonTouching [L2; L1] = Return [(2, [L1 ++ L2])]
  ∧ canonicalKey (L1 ++ L2) = canonicalKey (L2 ++ L1)
  ∧ canonicalKey (L1 ++ L2)
    = String.concat "," (merge_sort String.le (Edge.id <$> (L1 ++ L2))).
Proof.
  intros H1 H2 Hdisj. split; [|split; [|split]].
  - apply findNonTouching_pair; [done..|].
    intros x Hx2 Hx1. by apply (Hdisj x).
  - by apply findNonTouching_pair.
  - apply canonicalKey_Permutation, Permutation_app_comm.
  - reflexivity.
Qed.

(** ** Cycle enumeration: marks, stack and termination *)

Lemma findNode_Some (h : store) (nodes : list loc) (id : string) (v : loc) :
  findNode h nodes id = Some v → v ∈ nodes ∧ Node.id (deref h v) = id.
Proof.
  unfold findNode. intros [Hin Heq]%find_some. split.
  - by apply list_elem_of_In.
  - by apply String.eqb_eq.
Qed.

Lemma unvisited_le (h : store) (nodes : list loc) (visited : list string) :
  unvisited h nodes visited ≤ length nodes.
Proof. apply length_filter. Qed.

Lemma unvisited_mark (h : store) (nodes : list loc) (visited : list string)
    (v : loc) :
  v ∈ nodes → Node.id (deref h v) ∉ visited →
  unvisited h nodes (visited ++ [Node.id (deref h v)]) < unvisited h nodes visited.
Proof.
  intros Hin Hnew. unfold unvisited.
  set (P := λ x : loc, Node.id (deref h x) ∉ visited).
  set (Q := λ x : loc, Node.id (deref h x) ∉ visited ++ [Node.id (deref h v)]).
  assert (Heq : filter Q nodes = filter Q (filter P nodes)).
  { rewrite list_filter_filter. apply list_filter_iff. intros x. unfold P, Q.
    rewrite not_elem_of_app. tauto. }
  rewrite Heq. apply (length_filter_lt _ _ v).
  - apply list_elem_of_filter. by split.
  - unfold Q. intros Hq. apply Hq, elem_of_app. right. left.
Qed.

Section DfsPost.
Variables (h : store) (nodes : list loc) (startId : string).

Lemma dfsFindLoops_S (fuel : nat) (curr : loc) (st : DfsState) :
  dfsFindLoops (S fuel) h nodes curr startId st
  = let st1 := mkDfs (visited st ++ [Node.id (deref h curr)]) (stack st) (cycles st) in
    let* st2 := dfsEdges (λ v, dfsFindLoops fuel h nodes v startId)
                  h nodes startId (Node.outgoingEdges (deref h curr)) st1 in
    if negb (String.eqb (Node.id (deref h curr)) startId)
    then Return (mkDfs (removelast (visited st2)) (removelast (stack st2)) (cycles st2))
    else Return st2.
Proof. reflexivity. Qed.

Lemma dfsEdges_post (fuel : nat) (edges : list Edge.t) (st : DfsState) :
  (∀ fuel' curr st0,
      fuel = S fuel' →
      unvisited h nodes (visited st0 ++ [Node.id (deref h curr)]) ≤ fuel' →
      dfsPost h startId curr st0 (dfsFindLoops fuel h nodes curr startId st0)) →
  unvisited h nodes (visited st) ≤ fuel →
  ∃ st',
    dfsEdges (λ v, dfsFindLoops fuel h nodes v startId) h nodes startId edges st
    = Return st'
    ∧ visited st' = visited st ∧ stack st' = stack st
    ∧ cycles st `prefix_of` cycles st'.
Proof.
  intros Hrec. revert st.
  induction edges as [|edge rest IH]; intros st Hfuel; cbn [dfsEdges].
  - by exists st.
  - destruct (findNode h nodes (Edge.endNode edge)) as [v|] eqn:Hfind;
      [|by apply IH].
    apply findNode_Some in Hfind as [Hin _].
    destruct (String.eqb (Node.id (deref h v)) startId) eqn:Hroot.
    + destruct (IH (mkDfs (visited st) (removelast (stack st ++ [edge]))
                          (cycles st ++ [stack st ++ [edge]])))
        as (st' & Hrun & Hv & Hs & Hc); [done|].
      exists st'. split; [done|]. cbn in Hv, Hs, Hc.
      rewrite removelast_last in Hs. split; [done|]. split; [done|].
      etrans; [|exact Hc]. by apply prefix_app_r.
    + destruct (bool_decide (Node.id (deref h v) ∈ visited st)) eqn:Hseen;
        cbn [negb]; [by apply IH|].
      apply bool_decide_eq_false in Hseen.
      pose proof (unvisited_mark h nodes (visited st) v Hin Hseen) as Hlt.
      destruct fuel as [|fuel']; [lia|].
      destruct (Hrec fuel' v (mkDfs (visited st) (stack st ++ [edge]) (cycles st)))
        as (st1 & Hrun1 & Hv1 & Hs1 & Hc1); [done|cbn; lia|].
      rewrite Hroot in Hv1, Hs1. cbn in Hv1, Hs1, Hc1.
      rewrite removelast_last in Hs1.
      rewrite Hrun1. cbn [bindR].
      destruct (IH st1) as (st' & Hrun & Hv & Hs & Hc); [by rewrite Hv1|].
      exists st'. split; [done|]. split; [congruence|]. split; [congruence|].
      by etrans.
Qed.

Lemma dfsFindLoops_step (fuel : nat) (curr : loc) (st : DfsState) :
  (∀ fuel' curr0 st0,
      fuel = S fuel' →
      unvisited h nodes (visited st0 ++ [Node.id (deref h curr0)]) ≤ fuel' →
      dfsPost h startId curr0 st0 (dfsFindLoops fuel h nodes curr0 startId st0)) →
  unvisited h nodes (visited st ++ [Node.id (deref h curr)]) ≤ fuel →
  dfsPost h startId curr st (dfsFindLoops (S fuel) h nodes curr startId st).
Proof.
  intros Hrec Hfuel. rewrite dfsFindLoops_S. cbv zeta.
  destruct (dfsEdges_post fuel (Node.outgoingEdges (deref h curr))
              (mkDfs (visited st ++ [Node.id (deref h curr)]) (stack st) (cycles st))
              Hrec Hfuel)
    as (st' & Hrun & Hv & Hs & Hc).
  rewrite Hrun. cbn [bindR]. cbn in Hv, Hs, Hc. unfold dfsPost.
  destruct (String.eqb (Node.id (deref h curr)) startId); cbn [negb].
  - by exists st'.
  - eexists. split; [done|]. cbn. by rewrite Hv, Hs, removelast_last.
Qed.

Lemma dfsFindLoops_post (fuel : nat) (curr : loc) (st : DfsState) :
  unvisited h nodes (visited st ++ [Node.id (deref h curr)]) ≤ fuel →
  dfsPost h startId curr st (dfsFindLoops (S fuel) h nodes curr startId st).
Proof.
  revert curr st. induction fuel as [|fuel IH]; intros curr st Hfuel.
  - apply dfsFindLoops_step; [|done]. intros; lia.
  - apply dfsFindLoops_step; [|done].
    intros fuel' curr0 st0 [= <-] Hle. by apply IH.
Qed.

(** The bound of [findAllLoops] is enough for every call. *)
Lemma dfsFindLoops_total (curr : loc) (st : DfsState) :
  dfsPost h startId curr st (dfsFindLoops (dfsFuel nodes) h nodes curr startId st).
Proof. apply dfsFindLoops_post, unvisited_le. Qed.
End DfsPost.

Lemma findAllLoops_roots_post (h : store) (nodes roots : list loc) (st : DfsState) :
  ∃ st',
    findAllLoops_roots (dfsFuel nodes) h nodes roots st = Return st'
    ∧ visited st' = visited st ++ ((λ x, Node.id (deref h x)) <$> roots)
    ∧ stack st' = stack st.
Proof.
  revert st. induction roots as [|node roots IH]; intros st; cbn [findAllLoops_roots].
  - exists st. by rewrite app_nil_r.
  - destruct (dfsFindLoops_total h nodes (Node.id (deref h node)) node st)
      as (st1 & Hrun1 & Hv1 & Hs1 & _).
    rewrite String.eqb_refl in Hv1, Hs1. rewrite Hrun1. cbn [bindR].
    destruct (IH st1) as (st' & Hrun & Hv & Hs).
    exists st'. split; [done|]. rewrite Hv, Hv1, Hs, Hs1.
    by rewrite <- app_assoc.
Qed.

(** [findAllLoops] returns for every graph. *)
Lemma findAllLoops_total (h : store) (nodes : list loc) :
  ∃ allLoops, findAllLoops h nodes = Return allLoops.
Proof.
  unfold findAllLoops, findAllLoops_state.
  destruct (findAllLoops_roots_post h nodes nodes (mkDfs [] [] [])) as (st & -> & _).
  by eexists.
Qed.

(** C4, as the code has it.  [visited] and [stack] are shared by all the
    searches of [findAllLoops] and never reset.  Every call of
    [dfsFindLoops] returns; a call on a node other than the root leaves
    [visited] as it found it and has popped the edge that led to the node;
    the call on the root leaves the stack as it found it and the mark of
    the root in [visited], where it stays during the searches of all the
    later roots: when [findAllLoops] is done, [visited] holds the ids of all
    the nodes, in order, and the stack is empty. *)
Theorem dfsFindLoops_marks (h : store) (nodes : list loc) (curr : loc)
    (startId : string) (st : DfsState) :
  ∃ st',
    dfsFindLoops (dfsFuel nodes) h nodes curr startId st = Return st'
    ∧ (Node.id (deref h curr) ≠ startId →
       visited st' = visited st ∧ stack st' = removelast (stack st))
    ∧ (Node.id (deref h curr) = startId →
       visited st' = visited st ++ [startId] ∧ stack st' = stack st)
    ∧ ∃ final,
        findAllLoops_state h nodes = Return final
        ∧ visited final = (λ x, Node.id (deref h x)) <$> nodes
        ∧ stack final = [].
Proof.
  destruct (dfsFindLoops_total h nodes startId curr st) as (st' & Hrun & Hv & Hs & _).
  exists st'. split; [done|]. split; [|split].
  - intros Hne%String.eqb_neq. by rewrite Hne in Hv, Hs.
  - intros Heq. pose proof Heq as Heqb%String.eqb_eq.
    rewrite Heqb in Hv, Hs. rewrite Hv, Hs. by rewrite Heq.
  - destruct (findAllLoops_roots_post h nodes nodes (mkDfs [] [] []))
      as (final & Hrun' & Hv' & Hs').
    by exists final.
Qed.

(** ** The core writes to fresh objects only *)

Lemma stable_refl (b : nat) (h : store) : stable b h h.
Proof. by split. Qed.

Lemma stable_trans (b : nat) (h1 h2 h3 : store) :
  stable b h1 h2 → stable b h2 h3 → stable b h1 h3.
Proof.
  intros [Hl1 H1] [Hl2 H2]. split; [lia|].
  intros l Hl. by rewrite H2, H1.
Qed.

Lemma stable_alloc (b : nat) (h : store) (n : Node.t) :
  b ≤ length h → stable b h (h ++ [n]).
Proof.
  intros Hb. split; [rewrite length_app; lia|].
  intros l Hl. apply lookup_app_l. lia.
Qed.

Lemma stable_insert (b : nat) (h : store) (l : loc) (n : Node.t) :
  b ≤ l → stable b h (<[l := n]> h).
Proof.
  intros Hb. split; [by rewrite length_insert|].
  intros l' Hl'. apply list_lookup_insert_ne. lia.
Qed.

Lemma stable_preserved (h h' : store) : stable (length h) h h' → preserved h h'.
Proof.
  intros [_ Hs] l n Hl. rewrite Hs; [done|]. by eapply lookup_lt_Some.
Qed.

Lemma framed_ret {A} (b : nat) (a : A) : framed b (retM a).
Proof. intros h _. apply stable_refl. Qed.

Lemma framed_read {A} (b : nat) (f : store → result A) : framed b (readM f).
Proof. intros h _. apply stable_refl. Qed.

Lemma framed_bind {A B} (b : nat) (m : M A) (k : A → M B) :
  framed b m → (∀ a, framed b (k a)) → framed b (bindM m k).
Proof.
  intros Hm Hk h Hb. unfold bindM. specialize (Hm h Hb).
  destruct (m h) as [h1 [a| |]]; cbn [fst] in *; [|done..].
  eapply stable_trans; [exact Hm|]. apply Hk. destruct Hm. lia.
Qed.

Lemma framed_forEachM {A} (b : nat) (body : A → M unit) (xs : list A) :
  (∀ x, framed b (body x)) → framed b (forEachM body xs).
Proof.
  intros Hbody. induction xs as [|x xs IH]; cbn [forEachM].
  - apply framed_ret.
  - apply framed_bind; [apply Hbody|]. by intros _.
Qed.

Lemma framed_pruneEdge (b : nat) (n : loc) (nts : option loc) :
  b ≤ n → framed b (pruneEdge n nts).
Proof.
  intros Hn h _. unfold pruneEdge.
  destruct (Node.outgoingEdges (deref h n)) as [|e es]; [apply stable_refl|].
  destruct nts as [t|]; [|apply stable_refl].
  destruct (findIndex _ _); [|apply stable_refl].
  by apply stable_insert.
Qed.

Lemma framed_subtractLoop (b : nat) (nodesToSubtract : path)
    (allnodes_copy subgraph : list loc) :
  Forall (λ c, b ≤ c) allnodes_copy →
  framed b (subtractLoop nodesToSubtract allnodes_copy subgraph).
Proof.
  intros Hall. revert subgraph.
  induction Hall as [|n rest Hn Hrest IH]; intros subgraph; cbn [subtractLoop].
  - apply framed_ret.
  - apply framed_bind; [apply framed_read|]. intros [|]; [|apply IH].
    apply framed_bind; [|intros _; apply IH].
    apply framed_forEachM. intros nts. by apply framed_pruneEdge.
Qed.

(** The first loop of [subtractNodes] always returns, and its copies are
    all fresh. *)
Lemma copyNodes_fresh (b : nat) (originalNodes acc : list loc) (h : store) :
  b ≤ length h → Forall (λ c, b ≤ c) acc →
  ∃ h' allnodes_copy,
    copyNodes originalNodes acc h = (h', Return allnodes_copy)
    ∧ stable b h h' ∧ Forall (λ c, b ≤ c) allnodes_copy
    ∧ length allnodes_copy = length acc + length originalNodes.
Proof.
  revert acc h. induction originalNodes as [|n rest IH]; intros acc h Hb Hacc;
    cbn [copyNodes].
  - exists h, acc. split; [done|]. split; [apply stable_refl|].
    split; [done|]. simpl. lia.
  - unfold bindM at 1. rewrite Node_copy_eq.
    edestruct (IH (acc ++ [length h])) as (h' & cs & Hrun & Hst & Hcs & Hlen);
      [| |rewrite Hrun].
    + rewrite length_app. simpl. lia.
    + apply Forall_app. split; [done|]. by repeat constructor.
    + exists h', cs. split; [done|]. split; [|split; [done|]].
      * eapply stable_trans; [|exact Hst]. by apply stable_alloc.
      * rewrite Hlen, length_app. simpl. lia.
Qed.

(** The test [nodesToSubtract.includes(n)] of [subtractNodes] is made on
    the copies: it fails for every path made of nodes that were live
    before the call. *)
Lemma copies_not_on_path (originalNodes : list loc) (nodesToSubtract : path)
    (h h' : store) (allnodes_copy : list loc) (n : loc) :
  (∀ t, Some t ∈ nodesToSubtract → t < length h) →
  copyNodes originalNodes [] h = (h', Return allnodes_copy) →
  n ∈ allnodes_copy →
  bool_decide (Some n ∈ nodesToSubtract) = false.
Proof.
  intros Hlive Hrun Hn.
  destruct (copyNodes_fresh (length h) originalNodes [] h) as (h1 & cs & Hrun' & _ & Hcs & _);
    [done|done|].
  rewrite Hrun in Hrun'. injection Hrun' as _ <-.
  rewrite Forall_forall in Hcs. specialize (Hcs n Hn).
  apply bool_decide_eq_false. intros Hin%Hlive. lia.
Qed.

Lemma framed_subtractNodes (b : nat) (originalNodes : list loc)
    (nodesToSubtract : path) :
  framed b (subtractNodes originalNodes nodesToSubtract).
Proof.
  intros h Hb. unfold subtractNodes, bindM.
  destruct (copyNodes_fresh b originalNodes [] h Hb) as (h1 & cs & -> & Hst & Hcs & _);
    [done|].
  eapply stable_trans; [exact Hst|].
  apply framed_subtractLoop; [done|]. destruct Hst. lia.
Qed.

Section Frame.
Context {Expression : Type} {engine : Engine Expression}.

Lemma framed_cofactor (b : nat) (nodes : list loc) (p : path) :
  framed b (cofactor nodes p).
Proof.
  unfold cofactor. apply framed_bind; [apply framed_subtractNodes|]. intros subgraph.
  apply framed_bind; [apply framed_read|]. intros allLoops.
  apply framed_bind; [apply framed_read|]. intros nt. apply framed_ret.
Qed.

Lemma framed_cofactors (b : nat) (nodes : list loc) (paths : list path)
    (delta_k : list Expression) :
  framed b (cofactors nodes paths delta_k).
Proof.
  revert delta_k. induction paths as [|p rest IH]; intros delta_k; cbn [cofactors].
  - apply framed_ret.
  - apply framed_bind; [apply framed_cofactor|]. intros d. apply IH.
Qed.

Lemma framed_calculateNumerator (b : nat) (start end_ : string) (nodes : list loc) :
  framed b (calculateNumerator start end_ nodes).
Proof.
  unfold calculateNumerator.
  do 4 (apply framed_bind; [apply framed_read|]; intros ?).
  apply framed_bind; [apply framed_cofactors|]. intros delta_k.
  destruct (_ =? _)%nat; apply framed_ret.
Qed.

(** C9.  Every node object that is live before a call of
    [calculateNumerator] is live and has the same id, the same value and
    the same array of outgoing edges (each with the same weight, source,
    destination and id) after it, whether the call returns or not; the
    same holds for the construction of a residual subgraph by
    [subtractNodes], for the cofactor of a path and for [Node.copy]:
    they write to the copies only.  [findAllLoops], [findNonTouching]
    and [calculateDenominator] have no assignment to a node or to an
    edge at all, which is why they are functions of the store, or of
    their arguments alone, with no store as a result. *)
Theorem core_preserves_graph (h : store) (start end_ : string)
    (nodes : list loc) (p : path) (this : loc) :
  preserved h (calculateNumerator start end_ nodes h).1
  ∧ preserved h (cofactor nodes p h).1
  ∧ preserved h (subtractNodes nodes p h).1
  ∧ preserved h (Node_copy this h).1.
Proof.
  repeat split; apply stable_preserved.
  - by apply framed_calculateNumerator.
  - by apply framed_cofactor.
  - by apply framed_subtractNodes.
  - rewrite Node_copy_eq. by apply stable_alloc.
Qed.
End Frame.

(** ** The residual subgraph, exactly *)

Lemma deref_app_l (h h' : store) (l : loc) :
  l < length h → deref (h ++ h') l = deref h l.
Proof. intros Hl. unfold deref. by rewrite lookup_app_l. Qed.

Lemma deref_middle (h done rest : store) (c : Node.t) :
  deref (h ++ done ++ c :: rest) (length h + length done) = c.
Proof.
  unfold deref. rewrite app_assoc, <- length_app. by rewrite list_lookup_middle.
Qed.

Lemma insert_middle (h done rest : store) (c c' : Node.t) :
  <[length h + length done := c']> (h ++ done ++ c :: rest)
  = h ++ done ++ c' :: rest.
Proof.
  rewrite insert_app_r. f_equal.
  rewrite <- (Nat.add_0_r (length done)). by rewrite insert_app_r.
Qed.

Lemma copyOf_app_l (h h' : store) (ns : list loc) :
  Forall (λ n, n < length h) ns →
  copyOf (h ++ h') <$> ns = copyOf h <$> ns.
Proof.
  intros Hlive. apply Forall_fmap_ext. eapply Forall_impl; [exact Hlive|].
  intros n Hn. unfold copyOf. by rewrite deref_app_l.
Qed.

(** The first loop of [subtractNodes] on live nodes. *)
Lemma copyNodes_exact (ns acc : list loc) (h : store) :
  Forall (λ n, n < length h) ns →
  copyNodes ns acc h
  = (h ++ (copyOf h <$> ns), Return (acc ++ seq (length h) (length ns))).
Proof.
  revert acc h. induction ns as [|n rest IH]; intros acc h Hlive; cbn [copyNodes].
  - by rewrite !app_nil_r.
  - apply Forall_cons in Hlive as [Hn Hrest].
    unfold bindM. rewrite Node_copy_eq. fold (copyOf h n).
    rewrite IH.
    + rewrite (copyOf_app_l h [copyOf h n] rest Hrest).
      rewrite <- !app_assoc, length_app. cbn [length app fmap list_fmap seq].
      rewrite Nat.add_1_r. reflexivity.
    + eapply Forall_impl; [exact Hrest|]. intros m Hm. rewrite length_app.
      cbv beta in Hm. lia.
Qed.

(** One turn of the inner loop on the copy at [length h + length done]. *)
Lemma pruneEdge_exact (h done rest : store) (c : Node.t) (t : loc) :
  t < length h →
  pruneEdge (length h + length done) (Some t) (h ++ done ++ c :: rest)
  = (h ++ done
       ++ Node.mk (Node.id c) (Node.value c)
                  (pruneFirst (Node.id (deref h t)) (Node.outgoingEdges c)) :: rest,
     Return tt).
Proof.
  intros Ht. unfold pruneEdge, pruneFirst, set_outgoingEdges.
  rewrite deref_middle, (deref_app_l h _ t Ht).
  destruct c as [cid cval ces]. cbn [Node.id Node.value Node.outgoingEdges].
  destruct ces as [|e es]; [done|].
  destruct (findIndex _ (e :: es)) as [edge_i|]; [|done].
  by rewrite insert_middle.
Qed.

Lemma forEachM_pruneEdge_exact (h done rest : store) (c : Node.t) (p : list loc) :
  Forall (λ t, t < length h) p →
  forEachM (pruneEdge (length h + length done)) (Some <$> p) (h ++ done ++ c :: rest)
  = (h ++ done
       ++ Node.mk (Node.id c) (Node.value c)
                  (prunedEdges h p (Node.outgoingEdges c)) :: rest,
     Return tt).
Proof.
  intros Hlive. revert c. induction Hlive as [|t p Ht _ IH]; intros c.
  - by destruct c.
  - cbn [fmap list_fmap forEachM]. unfold bindM at 1.
    rewrite pruneEdge_exact by done. apply IH.
Qed.

Lemma subtractLoop_exact (h done : store) (p ns subgraph : list loc) :
  Forall (λ t, t < length h) p →
  subtractLoop (Some <$> p) (seq (length h + length done) (length ns)) subgraph
    (h ++ done ++ (copyOf h <$> ns))
  = (h ++ done ++ (residualOf h p (length h + length done) ns).1,
     Return (subgraph ++ (residualOf h p (length h + length done) ns).2)).
Proof.
  intros Hlive. revert done subgraph.
  induction ns as [|n rest IH]; intros done subgraph.
  - cbn. by rewrite !app_nil_r.
  - cbn [length seq fmap list_fmap subtractLoop residualOf].
    assert (Hnext : ∀ c : Node.t,
              S (length h + length done) = length h + length (done ++ [c])).
    { intros c. rewrite length_app. simpl. lia. }
    destruct (residualOf h p (S (length h + length done)) rest) as [objs sg] eqn:Hres.
    unfold bindM at 1, readM. rewrite deref_middle.
    rewrite bool_decide_eq_false_2; [cbn [negb andb]|].
    2:{ intros (t & [= <-] & Ht)%list_elem_of_fmap.
        rewrite Forall_forall in Hlive. specialize (Hlive _ Ht). lia. }
    destruct (Node.outgoingEdges (copyOf h n)) as [|e es] eqn:Hout; cbn [length Nat.ltb Nat.leb].
    + rewrite (Hnext (copyOf h n)).
      replace (h ++ done ++ copyOf h n :: (copyOf h <$> rest))
        with (h ++ (done ++ [copyOf h n]) ++ (copyOf h <$> rest))
        by (by rewrite <- !app_assoc).
      rewrite IH. rewrite <- (Hnext (copyOf h n)), Hres. cbn [fst snd].
      by rewrite <- !app_assoc.
    + unfold bindM at 1. rewrite forEachM_pruneEdge_exact by done.
      rewrite Hout. cbn [copyOf Node.id Node.value].
      set (c' := Node.mk _ _ (prunedEdges h p (e :: es))).
      rewrite (Hnext c').
      replace (h ++ done ++ c' :: (copyOf h <$> rest))
        with (h ++ (done ++ [c']) ++ (copyOf h <$> rest))
        by (by rewrite <- !app_assoc).
      rewrite IH. rewrite <- (Hnext c'), Hres. cbn [fst snd].
      by rewrite <- !app_assoc.
Qed.

(** [subtractNodes] on a path of live, resolved nodes: it returns, and
    what it adds to the store and what it returns do not depend on which
    nodes are on the path, except for the edges that are pruned. *)
Lemma subtractNodes_exact (h : store) (ns p : list loc) :
  Forall (λ n, n < length h) ns →
  Forall (λ t, t < length h) p →
  subtractNodes ns (Some <$> p) h
  = (h ++ (residualOf h p (length h) ns).1,
     Return (residualOf h p (length h) ns).2).
Proof.
  intros Hns Hp. unfold subtractNodes, bindM.
  rewrite copyNodes_exact by done. cbn [app].
  pose proof (subtractLoop_exact h [] p ns [] Hp) as Hloop.
  cbn [length app] in Hloop. rewrite Nat.add_0_r in Hloop. exact Hloop.
Qed.

Lemma residualOf_subgraph (h : store) (p : list loc) (b : loc) (ns : list loc)
    (i : nat) (n : loc) :
  ns !! i = Some n →
  Node.outgoingEdges (deref h n) ≠ [] →
  b + i ∈ (residualOf h p b ns).2.
Proof.
  revert b i. induction ns as [|m rest IH]; intros b i Hi Hout; [done|].
  cbn [residualOf].
  destruct (residualOf h p (S b) rest) as [objs sg] eqn:Hres.
  destruct i as [|i]; cbn in Hi.
  - injection Hi as ->. rewrite Nat.add_0_r.
    cbn [copyOf Node.outgoingEdges].
    destruct (Node.outgoingEdges (deref h n)) as [|e es]; [done|]. left.
  - specialize (IH (S b) i Hi Hout). rewrite Hres in IH. cbn [snd] in IH.
    replace (b + S i) with (S b + i) by lia.
    destruct (Node.outgoingEdges (copyOf h m)); cbn [snd]; [done|by right].
Qed.

Lemma residualOf_id (h : store) (p : list loc) (b : loc) (ns : list loc)
    (i : nat) (n : loc) :
  ns !! i = Some n →
  ∃ c, (residualOf h p b ns).1 !! i = Some c ∧ Node.id c = Node.id (deref h n).
Proof.
  revert b i. induction ns as [|m rest IH]; intros b i Hi; [done|].
  cbn [residualOf].
  destruct (residualOf h p (S b) rest) as [objs sg] eqn:Hres.
  destruct i as [|i]; cbn in Hi.
  - injection Hi as ->.
    destruct (Node.outgoingEdges (copyOf h n)); cbn [fst]; by eexists.
  - destruct (IH (S b) i Hi) as (c & Hc & Hid). rewrite Hres in Hc.
    exists c. split; [|done].
    by destruct (Node.outgoingEdges (copyOf h m)).
Qed.

(** Being on the path never keeps a node out of the residual subgraph:
    on a path of live, resolved nodes [subtractNodes] returns, and every
    node that has an outgoing edge has its copy among the nodes
    returned. *)
Lemma subtractNodes_keeps_every_source (h : store) (ns p : list loc)
    (i : nat) (n : loc) :
  Forall (λ n, n < length h) ns →
  Forall (λ t, t < length h) p →
  ns !! i = Some n →
  Node.outgoingEdges (deref h n) ≠ [] →
  ∃ h' subgraph,
    subtractNodes ns (Some <$> p) h = (h', Return subgraph)
    ∧ length h + i ∈ subgraph
    ∧ Node.id (deref h' (length h + i)) = Node.id (deref h n).
Proof.
  intros Hns Hp Hi Hout. eexists _, _.
  split; [by apply subtractNodes_exact|].
  split; [by apply (residualOf_subgraph h p (length h) ns i n)|].
  destruct (residualOf_id h p (length h) ns i n Hi) as (c & Hc & Hid).
  unfold deref at 1. rewrite lookup_app_r by lia.
  replace (length h + i - length h) with i by lia.
  by rewrite Hc.
Qed.

(** ** Forward paths: termination and shape *)

Lemma offPath_le (nodes : list loc) (currPath : path) :
  offPath nodes currPath ≤ length nodes.
Proof. apply length_filter. Qed.

Lemma offPath_push (nodes : list loc) (currPath : path) (s : loc) :
  s ∈ nodes → Some s ∉ currPath →
  offPath nodes (currPath ++ [Some s]) < offPath nodes currPath.
Proof.
  intros Hin Hnew. unfold offPath.
  set (P := λ x : loc, Some x ∉ currPath).
  set (Q := λ x : loc, Some x ∉ currPath ++ [Some s]).
  assert (Heq : filter Q nodes = filter Q (filter P nodes)).
  { rewrite list_filter_filter. apply list_filter_iff. intros x. unfold P, Q.
    rewrite not_elem_of_app. tauto. }
  rewrite Heq. apply (length_filter_lt _ _ s).
  - apply list_elem_of_filter. by split.
  - unfold Q. intros Hq. apply Hq, elem_of_app. right. left.
Qed.

Lemma linked_snoc (h : store) (cp : path) (s v : loc) (e : Edge.t) :
  linked h (cp ++ [Some s]) →
  e ∈ Node.outgoingEdges (deref h s) →
  Edge.endNode e = Node.id (deref h v) →
  linked h ((cp ++ [Some s]) ++ [Some v]).
Proof.
  intros Hl He Hend. induction cp as [|x cp IH].
  - simpl. split; [by exists e|done].
  - destruct Hl as [Hhead Htail]. specialize (IH Htail).
    cbn [app linked]. split; [|exact IH].
    destruct x as [a|]; [|done].
    destruct cp as [|y cp]; exact Hhead.
Qed.

Lemma linked_all_Some (h : store) (p : path) :
  linked h p → Forall is_Some p.
Proof.
  induction p as [|x p IH]; [constructor|]. intros [Hhead Htail].
  constructor; [|by apply IH]. by destruct x.
Qed.

Lemma noDangling_resolves (h : store) (nodes : list loc) (x : loc) (e : Edge.t) :
  noDangling h nodes → x ∈ nodes → e ∈ Node.outgoingEdges (deref h x) →
  is_Some (findNode h nodes (Edge.endNode e)).
Proof.
  intros Hnd Hx He. unfold noDangling in Hnd.
  rewrite Forall_forall in Hnd. specialize (Hnd x Hx).
  rewrite Forall_forall in Hnd. by apply Hnd.
Qed.

Section ForwardPaths.
Variables (h : store) (nodes : list loc) (end_ : option loc).

Lemma findForwardPaths_S (fuel : nat) (start : option loc)
    (paths : list path) (currPath : path) :
  findForwardPaths (S fuel) h start end_ nodes paths currPath
  = if bool_decide (start = end_) then Return (paths ++ [currPath ++ [start]])
    else if bool_decide (start ∈ currPath) then Return paths
    else match start with
         | None => TypeError
         | Some s =>
             if (length (Node.outgoingEdges (deref h s)) <? 1)%nat then Return paths
             else forwardEdges (λ next, findForwardPaths fuel h next end_ nodes)
                    h nodes (Node.outgoingEdges (deref h s)) paths (currPath ++ [start])
         end.
Proof. reflexivity. Qed.

(** On a graph without unresolved references the enumeration returns,
    keeps the paths found before and adds linked paths only. *)
Lemma findForwardPaths_linked (fuel : nat) (s : loc)
    (paths : list path) (currPath : path) :
  noDangling h nodes →
  offPath nodes currPath < fuel →
  s ∈ nodes →
  linked h (currPath ++ [Some s]) →
  ∃ found,
    findForwardPaths fuel h (Some s) end_ nodes paths currPath
    = Return (paths ++ found)
    ∧ Forall (linked h) found.
Proof.
  intros Hnd. revert s paths currPath.
  induction fuel as [|fuel IH]; intros s paths currPath Hfuel Hs Hl; [lia|].
  rewrite findForwardPaths_S.
  case_bool_decide as Hend.
  { exists [currPath ++ [Some s]]. split; [done|]. by repeat constructor. }
  case_bool_decide as Hseen.
  { exists []. by rewrite app_nil_r. }
  destruct (_ <? 1)%nat.
  { exists []. by rewrite app_nil_r. }
  pose proof (offPath_push nodes currPath s Hs Hseen) as Hlt.
  assert (Hedges : ∀ e, e ∈ Node.outgoingEdges (deref h s)
                        → e ∈ Node.outgoingEdges (deref h s)) by done.
  revert Hedges. generalize (Node.outgoingEdges (deref h s)) at 1 3.
  intros edges. revert paths.
  induction edges as [|edge rest IHe]; intros paths Hedges; cbn [forwardEdges].
  { exists []. by rewrite app_nil_r. }
  assert (Hin : edge ∈ Node.outgoingEdges (deref h s)) by (apply Hedges; left).
  destruct (noDangling_resolves h nodes s edge Hnd Hs Hin) as [v Hfind].
  rewrite Hfind.
  apply findNode_Some in Hfind as Hv. destruct Hv as [Hvin Hvid].
  destruct (IH v paths (currPath ++ [Some s])) as (found1 & Hrun1 & Hl1);
    [lia|done|by eapply linked_snoc|].
  rewrite Hrun1. cbn [bindR].
  destruct (IHe (paths ++ found1)) as (found2 & Hrun2 & Hl2).
  { intros e He. apply Hedges. by right. }
  exists (found1 ++ found2). rewrite Hrun2, app_assoc. split; [done|].
  by apply Forall_app.
Qed.

(** Whatever the graph, the bound of the embedding is never what stops
    the enumeration. *)
Lemma findForwardPaths_fuel (fuel : nat) (start : option loc)
    (paths : list path) (currPath : path) :
  offPath nodes currPath < fuel →
  (∀ s, start = Some s → s ∈ nodes) →
  findForwardPaths fuel h start end_ nodes paths currPath ≠ OutOfFuel.
Proof.
  revert start paths currPath.
  induction fuel as [|fuel IH]; intros start paths currPath Hfuel Hs; [lia|].
  rewrite findForwardPaths_S.
  case_bool_decide as Hend; [done|].
  case_bool_decide as Hseen; [done|].
  destruct start as [s|]; [|done].
  destruct (_ <? 1)%nat; [done|].
  pose proof (offPath_push nodes currPath s (Hs s eq_refl) Hseen) as Hlt.
  generalize (Node.outgoingEdges (deref h s)). intros edges. revert paths.
  induction edges as [|edge rest IHe]; intros paths; cbn [forwardEdges]; [done|].
  pose proof (IH (findNode h nodes (Edge.endNode edge)) paths
                (currPath ++ [Some s])) as Hrec.
  destruct (findForwardPaths fuel h _ end_ nodes paths (currPath ++ [Some s]))
    as [paths'| |]; cbn [bindR]; [apply IHe|done|].
  exfalso. apply Hrec; [lia| |done].
  intros v Hv. by apply findNode_Some in Hv as [? _].
Qed.
(** An edge whose destination does not resolve is not passed over: the
    enumeration calls itself on [undefined], which is neither the end node
    nor on the path, and reads [start.outgoingEdges] there. *)
Lemma forwardEdges_unresolved (fuel : nat) (edge : Edge.t) (rest : list Edge.t)
    (paths : list path) (currPath : path) :
  findNode h nodes (Edge.endNode edge) = None →
  is_Some end_ →
  None ∉ currPath →
  forwardEdges (λ next, findForwardPaths (S fuel) h next end_ nodes)
    h nodes (edge :: rest) paths currPath
  = TypeError.
Proof.
  intros Hnone [e He] Hpath. cbn [forwardEdges]. rewrite Hnone.
  rewrite findForwardPaths_S.
  rewrite bool_decide_eq_false_2 by (by rewrite He).
  by rewrite bool_decide_eq_false_2.
Qed.
End ForwardPaths.

(** ** The numerator always has its cofactors *)

Lemma extractPathEdges_linked (h : store) (p : path) :
  linked h p → ∃ es, extractPathEdges h p = Return (Some <$> es).
Proof.
  induction p as [|pn rest IH]; [by exists []|].
  intros [Hhead Htail]. destruct (IH Htail) as [es Hes].
  destruct rest as [|next rest]; [by exists []|].
  destruct pn as [a|]; [|done]. destruct next as [b|]; [|done].
  destruct Hhead as (e & Hin & Hend).
  cbn [extractPathEdges]. cbn [extractPathEdges] in Hes. rewrite Hes.
  destruct (Node.outgoingEdges (deref h a)) as [|e0 es0] eqn:Hout.
  { by apply elem_of_nil in Hin. }
  destruct (List.find (λ x, String.eqb (Edge.endNode x) (Node.id (deref h b)))
              (e0 :: es0)) as [pe|] eqn:Hfind.
  - by exists (pe :: es).
  - exfalso. apply list_elem_of_In in Hin.
    pose proof (find_none _ _ Hfind e Hin) as Hno. cbv beta in Hno.
    by rewrite Hend, String.eqb_refl in Hno.
Qed.

Section Numerator.
Context {Expression : Type} {engine : Engine Expression}.

Lemma calculateLoopGain_from_defined (ex : Expression) (es : list Edge.t) :
  calculateLoopGain_from ex (Some <$> es)
  = Return (fold_left (λ ex e, multiply ex (weightTerm e)) es ex).
Proof.
  revert ex. induction es as [|e es IH]; intros ex; [done|]. apply IH.
Qed.

Lemma getForwardPathsLoopgains_length (h : store) (paths : list path)
    (gains : list Expression) :
  getForwardPathsLoopgains h paths = Return gains → length gains = length paths.
Proof.
  revert gains. induction paths as [|p rest IH]; intros gains; cbn [getForwardPathsLoopgains].
  - by intros [= <-].
  - destruct (extractPathEdges h p) as [es| |]; cbn [bindR]; [|done..].
    destruct (calculateLoopGain_from _ es) as [g| |]; cbn [bindR]; [|done..].
    destruct (getForwardPathsLoopgains h rest) as [gs| |]; cbn [bindR]; [|done..].
    intros [= <-]. simpl. f_equal. by apply IH.
Qed.

Lemma getForwardPathsLoopgains_fuel (h : store) (paths : list path) :
  getForwardPathsLoopgains h paths ≠ OutOfFuel.
Proof.
  induction paths as [|p rest IH]; cbn [getForwardPathsLoopgains]; [done|].
  assert (He : extractPathEdges h p ≠ OutOfFuel).
  { clear. induction p as [|pn rest IH]; [done|].
    destruct rest as [|next rest]; [done|]. cbn [extractPathEdges].
    assert (Hpe : ∀ r : result (option Edge.t), r ≠ OutOfFuel →
              (let* pe := r in let* pes := extractPathEdges h (next :: rest) in
               Return (pe :: pes)) ≠ OutOfFuel).
    { intros [pe| |] Hr; cbn [bindR]; [|done..].
      by destruct (extractPathEdges h (next :: rest)). }
    apply Hpe. destruct pn as [a|]; [|done].
    destruct (Node.outgoingEdges (deref h a)); [done|]. by destruct next. }
  destruct (extractPathEdges h p) as [es| |]; cbn [bindR]; [|done..].
  assert (Hg : ∀ ex, calculateLoopGain_from ex es ≠ OutOfFuel).
  { clear. induction es as [|[e|] es IH]; intros ex; cbn [calculateLoopGain_from];
      [done|apply IH|done]. }
  specialize (Hg (constant 1)).
  destruct (calculateLoopGain_from (constant 1) es) as [g| |]; cbn [bindR]; [|done..].
  by destruct (getForwardPathsLoopgains h rest).
Qed.

Lemma getForwardPathsLoopgains_linked (h : store) (paths : list path) :
  Forall (linked h) paths →
  ∃ gains, getForwardPathsLoopgains h paths = Return gains.
Proof.
  induction 1 as [|p rest Hp _ IH]; [by exists []|].
  cbn [getForwardPathsLoopgains].
  destruct (extractPathEdges_linked h p Hp) as [es ->]. cbn [bindR].
  rewrite calculateLoopGain_from_defined. cbn [bindR].
  destruct IH as [gs ->]. by eexists.
Qed.

Lemma cofactors_length (nodes : list loc) (paths : list path)
    (delta_k delta_k' : list Expression) (h h' : store) :
  cofactors nodes paths delta_k h = (h', Return delta_k') →
  length delta_k' = length delta_k + length paths.
Proof.
  revert delta_k h. induction paths as [|p rest IH]; intros delta_k h; cbn [cofactors].
  - intros [= _ <-]. simpl. lia.
  - unfold bindM at 1.
    destruct (cofactor nodes p h) as [h1 [d| |]]; [|done..].
    intros Hrun%IH. rewrite Hrun, length_app. simpl. lia.
Qed.

(** [calculateNumerator] with its steps in a row. *)
Lemma calculateNumerator_eq (start end_ : string) (nodes : list loc) (h : store) :
  calculateNumerator start end_ nodes h
  = match findForwardPaths (pathFuel nodes) h (findNode h nodes start)
            (findNode h nodes end_) nodes [] [] with
    | Return paths =>
        match getForwardPathsLoopgains h paths with
        | Return forwardLoopgains =>
            match cofactors nodes paths [] h with
            | (h', Return delta_k) =>
                (h', Return
                       (if (length forwardLoopgains =? length delta_k)%nat
                        then Some (sumProducts forwardLoopgains delta_k (constant 0))
                        else None))
            | (h', TypeError) => (h', TypeError)
            | (h', OutOfFuel) => (h', OutOfFuel)
            end
        | TypeError => (h, TypeError)
        | OutOfFuel => (h, OutOfFuel)
        end
    | TypeError => (h, TypeError)
    | OutOfFuel => (h, OutOfFuel)
    end.
Proof.
  unfold calculateNumerator, bindM, readM.
  destruct (findForwardPaths _ _ _ _ _ _ _) as [paths| |]; [|done..].
  destruct (getForwardPathsLoopgains h paths) as [gains| |]; [|done..].
  destruct (cofactors nodes paths [] h) as [h' [dk| |]]; [|done..].
  by destruct (_ =? _)%nat.
Qed.

(** The branch of [calculateNumerator] that reports a mismatch is dead
    code. *)
Lemma calculateNumerator_no_mismatch (start end_ : string) (nodes : list loc)
    (h : store) :
  (calculateNumerator start end_ nodes h).2 ≠ Return None.
Proof.
  unfold calculateNumerator, bindM, readM. cbn [fst snd].
  destruct (findForwardPaths _ _ _ _ _ _ _) as [paths| |]; [|done..].
  destruct (getForwardPathsLoopgains h paths) as [gains| |] eqn:Hg; [|done..].
  destruct (cofactors nodes paths [] h) as [h' [dk| |]] eqn:Hd; [|done..].
  apply getForwardPathsLoopgains_length in Hg.
  apply cofactors_length in Hd. simpl in Hd.
  rewrite (proj2 (Nat.eqb_eq _ _)) by lia. done.
Qed.

Lemma forEachM_pruneEdge_returns (n : loc) (nodesToSubtract : path) (h : store) :
  Forall is_Some nodesToSubtract →
  ∃ h', forEachM (pruneEdge n) nodesToSubtract h = (h', Return tt).
Proof.
  intros Hp. revert h. induction Hp as [|nts rest [t ->] _ IH]; intros h;
    cbn [forEachM]; [by eexists|].
  unfold bindM at 1.
  assert (Hone : ∃ h1, pruneEdge n (Some t) h = (h1, Return tt)).
  { unfold pruneEdge, set_outgoingEdges.
    destruct (Node.outgoingEdges (deref h n)); [by eexists|].
    destruct (findIndex _ _); by eexists. }
  destruct Hone as [h1 ->]. apply IH.
Qed.

Lemma subtractLoop_returns (nodesToSubtract : path)
    (allnodes_copy subgraph : list loc) (h : store) :
  Forall is_Some nodesToSubtract →
  ∃ h' subgraph',
    subtractLoop nodesToSubtract allnodes_copy subgraph h = (h', Return subgraph').
Proof.
  intros Hp. revert subgraph h.
  induction allnodes_copy as [|n rest IH]; intros subgraph h; cbn [subtractLoop];
    [by eexists _, _|].
  unfold bindM at 1, readM.
  destruct (_ && _); [|apply IH].
  unfold bindM at 1.
  destruct (forEachM_pruneEdge_returns n nodesToSubtract h Hp) as [h1 ->].
  apply IH.
Qed.

Lemma subtractNodes_returns (originalNodes : list loc) (nodesToSubtract : path)
    (h : store) :
  Forall is_Some nodesToSubtract →
  ∃ h' subgraph,
    subtractNodes originalNodes nodesToSubtract h = (h', Return subgraph).
Proof.
  intros Hp. unfold subtractNodes, bindM.
  destruct (copyNodes_fresh 0 originalNodes [] h) as (h1 & cs & -> & _);
    [lia|done|].
  by apply subtractLoop_returns.
Qed.

Lemma cofactor_returns (nodes : list loc) (p : path) (h : store) :
  Forall is_Some p → ∃ h' d_k, cofactor nodes p h = (h', Return d_k).
Proof.
  intros Hp. unfold cofactor, bindM at 1.
  destruct (subtractNodes_returns nodes p h Hp) as (h1 & subgraph & ->).
  unfold bindM at 1, readM.
  destruct (findAllLoops_total h1 subgraph) as [allLoops ->].
  unfold bindM, readM.
  destruct (findNonTouching_shape allLoops) as (nt & -> & _).
  by eexists _, _.
Qed.

Lemma cofactors_return (nodes : list loc) (paths : list path)
    (delta_k : list Expression) (h : store) :
  Forall (λ p, Forall is_Some p) paths →
  ∃ h' delta_k', cofactors nodes paths delta_k h = (h', Return delta_k').
Proof.
  intros Hp. revert delta_k h.
  induction Hp as [|p rest Hp _ IH]; intros delta_k h; cbn [cofactors];
    [by eexists _, _|].
  unfold bindM at 1.
  destruct (cofactor_returns nodes p h Hp) as (h1 & d & ->). apply IH.
Qed.

(** The recursion bounds of the embedding never decide the result. *)
Lemma forEachM_pruneEdge_fuel (n : loc) (nodesToSubtract : path) (h : store) :
  (forEachM (pruneEdge n) nodesToSubtract h).2 ≠ OutOfFuel.
Proof.
  revert h. induction nodesToSubtract as [|nts rest IH]; intros h; cbn [forEachM];
    [done|].
  unfold bindM at 1.
  assert (Hone : (pruneEdge n nts h).2 ≠ OutOfFuel).
  { unfold pruneEdge, set_outgoingEdges.
    destruct (Node.outgoingEdges (deref h n)); [done|].
    destruct nts; [|done]. by destruct (findIndex _ _). }
  destruct (pruneEdge n nts h) as [h1 [[]| |]]; [apply IH|done|done].
Qed.

Lemma subtractNodes_fuel (originalNodes : list loc) (nodesToSubtract : path)
    (h : store) :
  (subtractNodes originalNodes nodesToSubtract h).2 ≠ OutOfFuel.
Proof.
  unfold subtractNodes, bindM.
  destruct (copyNodes_fresh 0 originalNodes [] h) as (h1 & cs & -> & _);
    [lia|done|].
  generalize (@nil loc). revert h1.
  induction cs as [|n rest IH]; intros h1 subgraph; cbn [subtractLoop]; [done|].
  unfold bindM at 1, readM.
  destruct (_ && _); [|apply IH].
  unfold bindM at 1.
  pose proof (forEachM_pruneEdge_fuel n nodesToSubtract h1) as Hp.
  destruct (forEachM (pruneEdge n) nodesToSubtract h1) as [h2 [[]| |]];
    [apply IH|done|done].
Qed.

Lemma cofactors_fuel (nodes : list loc) (paths : list path)
    (delta_k : list Expression) (h : store) :
  (cofactors nodes paths delta_k h).2 ≠ OutOfFuel.
Proof.
  revert delta_k h. induction paths as [|p rest IH]; intros delta_k h;
    cbn [cofactors]; [done|].
  unfold bindM at 1, cofactor, bindM at 1.
  pose proof (subtractNodes_fuel nodes p h) as Hs.
  destruct (subtractNodes nodes p h) as [h1 [subgraph| |]]; [|done..].
  unfold bindM at 1, readM.
  destruct (findAllLoops_total h1 subgraph) as [allLoops ->].
  unfold bindM at 1, readM.
  destruct (findNonTouching_shape allLoops) as (nt & -> & _).
  apply IH.
Qed.

Lemma calculateNumerator_fuel (start end_ : string) (nodes : list loc) (h : store) :
  (calculateNumerator start end_ nodes h).2 ≠ OutOfFuel.
Proof.
  rewrite calculateNumerator_eq.
  pose proof (findForwardPaths_fuel h nodes (findNode h nodes end_) (pathFuel nodes)
                (findNode h nodes start) [] []) as Hp.
  destruct (findForwardPaths _ _ _ _ _ _ _) as [paths| |]; [|done|].
  - pose proof (getForwardPathsLoopgains_fuel h paths) as Hg.
    destruct (getForwardPathsLoopgains h paths) as [gains| |]; [|done..].
    pose proof (cofactors_fuel nodes paths [] h) as Hc.
    by destruct (cofactors nodes paths [] h) as [h' [dk| |]].
  - exfalso. apply Hp; [|by intros s [? _]%findNode_Some|done].
    unfold pathFuel. pose proof (offPath_le nodes []). lia.
Qed.

(** C8, as the code has it.  [calculateNumerator] never takes the branch
    that reports a mismatch: whenever it gets as far as the comparison,
    there are as many cofactors as forward gains, so [undefined] is never
    its result (nor is the recursion bound of the embedding ever what
    stops it).  When the start id resolves and every edge of the graph
    ends at a node of the graph, it returns a symbolic numerator. *)
Theorem calculateNumerator_returns (start end_ : string) (nodes : list loc)
    (h : store) :
  (calculateNumerator start end_ nodes h).2 ≠ Return None
  ∧ (calculateNumerator start end_ nodes h).2 ≠ OutOfFuel
  ∧ (is_Some (findNode h nodes start) → noDangling h nodes →
     ∃ h' numer,
       calculateNumerator start end_ nodes h = (h', Return (Some numer))).
Proof.
  split; [apply calculateNumerator_no_mismatch|].
  split; [apply calculateNumerator_fuel|].
  intros [s Hs] Hnd.
  pose proof (calculateNumerator_no_mismatch start end_ nodes h) as Hno.
  revert Hno. unfold calculateNumerator, bindM, readM. rewrite Hs.
  apply findNode_Some in Hs as [Hin _].
  destruct (findForwardPaths_linked h nodes (findNode h nodes end_)
              (pathFuel nodes) s [] [] Hnd) as (paths & -> & Hl).
  { unfold pathFuel. pose proof (offPath_le nodes []). lia. }
  { done. }
  { done. }
  cbn [app].
  destruct (getForwardPathsLoopgains_linked h paths Hl) as [gains ->].
  destruct (cofactors_return nodes paths [] h) as (h' & dk & ->).
  { eapply Forall_impl; [exact Hl|]. apply linked_all_Some. }
  destruct (_ =? _)%nat; cbn [snd retM]; [|done]. intros _. by eexists _, _.
Qed.
End Numerator.

(** ** The chain with a self-loop *)

Section Chain.
Variables (a b f : string) (selfLoopFirst : bool).

Lemma chain_findNode :
  findNode (chain a b f selfLoopFirst) [0; 1; 2] "1" = Some 0
  ∧ findNode (chain a b f selfLoopFirst) [0; 1; 2] "3" = Some 2.
Proof. by destruct selfLoopFirst. Qed.

Lemma chain_loops :
  findAllLoops (chain a b f selfLoopFirst) [0; 1; 2]
  = Return [[Edge.new f "2" "2"]].
Proof. destruct selfLoopFirst; vm_compute; reflexivity. Qed.

Lemma chain_paths :
  findForwardPaths (pathFuel [0; 1; 2]) (chain a b f selfLoopFirst)
    (Some 0) (Some 2) [0; 1; 2] [] []
  = Return [path123].
Proof. destruct selfLoopFirst; vm_compute; reflexivity. Qed.

Lemma chain_pathEdges :
  extractPathEdges (chain a b f selfLoopFirst) path123
  = Return [Some (Edge.new a "1" "2"); Some (Edge.new b "2" "3")].
Proof. destruct selfLoopFirst; vm_compute; reflexivity. Qed.

(** The residual of the only forward path: the copies of nodes 1 and 2
    with no edge left; node 3 has no edge and is not taken. *)
Lemma chain_residual :
  subtractNodes [0; 1; 2] path123 (chain a b f selfLoopFirst)
  = (chain a b f selfLoopFirst
       ++ [Node.mk "1" None []; Node.mk "2" None []; Node.mk "3" None []],
     Return [3; 4]).
Proof. destruct selfLoopFirst; vm_compute; reflexivity. Qed.

Lemma chain_residual_loops :
  findAllLoops
    (chain a b f selfLoopFirst
       ++ [Node.mk "1" None []; Node.mk "2" None []; Node.mk "3" None []])
    [3; 4]
  = Return [].
Proof. destruct selfLoopFirst; vm_compute; reflexivity. Qed.

Context {Expression : Type} {engine : Engine Expression}.
Hypothesis laws : EngineLaws.

Local Lemma chain_ring :
  ring_theory (constant 0) (constant 1) add multiply subtract
              (λ x, subtract (constant 0) x) (@eq Expression).
Proof using laws. exact (proj1 laws). Qed.

Add Ring chain_ring_inst : chain_ring.

(** C7.  For the chain 1 -> 2 -> 3 with gains [a] and [b] and a
    self-loop of gain [f] at node 2, in either order of the two edges of
    node 2, and over an engine that is a commutative ring: the only loop
    is the self-loop, no two loops are non-touching, and the denominator
    is [1 - f]; the only forward path is 1, 2, 3, its residual subgraph
    has no cycle, its cofactor is 1, and [calculateNumerator] returns
    [a * b]. *)
Theorem chain_transfer_function :
  (∃ allLoops nonTouching,
      findAllLoops (chain a b f selfLoopFirst) [0; 1; 2] = Return allLoops
      ∧ findNonTouching allLoops = Return nonTouching
      ∧ calculateDenominator allLoops nonTouching
        = subtract (constant 1) (parse ("(" +:+ f +:+ ")")))
  ∧ (∃ residual subgraph,
        subtractNodes [0; 1; 2] path123 (chain a b f selfLoopFirst)
        = (residual, Return subgraph)
        ∧ findAllLoops residual subgraph = Return []
        ∧ (cofactor [0; 1; 2] path123 (chain a b f selfLoopFirst)).2
          = Return (add (constant 0) (constant 1))
        ∧ add (constant 0) (constant 1) = constant 1)
  ∧ ∃ h' numer,
      calculateNumerator "1" "3" [0; 1; 2] (chain a b f selfLoopFirst)
      = (h', Return (Some numer))
      ∧ numer = multiply (parse ("(" +:+ a +:+ ")")) (parse ("(" +:+ b +:+ ")")).
Proof using laws.
  assert (Hcof : cofactor [0; 1; 2] path123 (chain a b f selfLoopFirst)
                 = (chain a b f selfLoopFirst
                      ++ [Node.mk "1" None []; Node.mk "2" None []; Node.mk "3" None []],
                    Return (add (constant 0) (constant 1)))).
  { unfold cofactor, bindM at 1. rewrite chain_residual.
    unfold bindM at 1, readM. rewrite chain_residual_loops. reflexivity. }
  split; [|split].
  - exists [[Edge.new f "2" "2"]], []. split; [apply chain_loops|].
    split; [reflexivity|].
    unfold calculateDenominator, calculateLoopGain, weightTerm. simpl. ring.
  - eexists _, _. split; [apply chain_residual|].
    split; [apply chain_residual_loops|]. split; [by rewrite Hcof|]. ring.
  - rewrite calculateNumerator_eq.
    destruct chain_findNode as [-> ->]. rewrite chain_paths.
    cbn [getForwardPathsLoopgains]. rewrite chain_pathEdges.
    cbn [bindR calculateLoopGain_from].
    cbn [cofactors]. unfold bindM at 1. rewrite Hcof.
    cbn [retM app length Nat.eqb sumProducts].
    eexists _, _. split; [reflexivity|].
    unfold weightTerm. simpl. ring.
Qed.
End Chain.

(** ** Inputs on which the code departs from its documentation *)

(** The general half of C3: an edge whose destination does not resolve is
    passed over by the loop of [dfsFindLoops], which goes on with the next
    edge from the same state. *)
Lemma dfsEdges_unresolved (rec : loc → DfsState → result DfsState)
    (h : store) (nodes : list loc) (startId : string)
    (edge : Edge.t) (rest : list Edge.t) (st : DfsState) :
  findNode h nodes (Edge.endNode edge) = None →
  dfsEdges rec h nodes startId (edge :: rest) st
  = dfsEdges rec h nodes startId rest st.
Proof. intros Hnone. cbn [dfsEdges]. by rewrite Hnone. Qed.

(** C3, the forward paths.  In [danglingGraph] the first edge of node 1
    ends at a node that is not in the graph.  [findAllLoops] passes over
    it and finds the loop 1 -> 2 -> 1.  [findForwardPaths] calls itself on
    [undefined] and reads [start.outgoingEdges] there: the enumeration of
    the paths from 1 to 2, and [calculateNumerator] with it, end on a
    [TypeError] instead of finding the path 1 -> 2. *)
Theorem findForwardPaths_unresolved_throws {Expression : Type} {engine : Engine Expression} :
  findNode danglingGraph [0; 1] "9" = None
  ∧ findAllLoops danglingGraph [0; 1]
    = Return [[Edge.new "a" "1" "2"; Edge.new "b" "2" "1"]]
  ∧ findForwardPaths (pathFuel [0; 1]) danglingGraph (Some 0) (Some 1) [0; 1] [] []
    = TypeError
  ∧ calculateNumerator "1" "2" [0; 1] danglingGraph = (danglingGraph, TypeError).
Proof.
  assert (Hpaths : findForwardPaths (pathFuel [0; 1]) danglingGraph (Some 0) (Some 1)
                     [0; 1] [] [] = TypeError) by (vm_compute; reflexivity).
  split; [reflexivity|]. split; [vm_compute; reflexivity|]. split; [exact Hpaths|].
  rewrite calculateNumerator_eq.
  change (findNode danglingGraph [0; 1] "1") with (Some 0).
  change (findNode danglingGraph [0; 1] "2") with (Some 1).
  by rewrite Hpaths.
Qed.

(** C1.  In [twoSelfLoops] the forward path 1 -> 2 -> 3 goes through
    node 2, which has two parallel self-loops.  The residual subgraph that
    [subtractNodes] builds holds a copy of node 1 and a copy of node 2: the
    test [nodesToSubtract.includes(n)] is made on the copy and the path
    holds the original nodes, so no node is ever left out for being on the
    path.  [findIndex] and [splice] remove one edge per path node, so the
    second self-loop stays on the copy of node 2: the residual has a cycle
    through a node of the path and the cofactor is [1 - g], not 1. *)
Theorem subtractNodes_keeps_path_nodes {Expression : Type} {engine : Engine Expression} :
  let residual :=
    twoSelfLoops ++ [ Node.mk "1" None [];
                      Node.mk "2" None [Edge.new "g" "2" "2"];
                      Node.mk "3" None [] ] in
  findForwardPaths (pathFuel [0; 1; 2]) twoSelfLoops (Some 0) (Some 2) [0; 1; 2] [] []
  = Return [path123]
  ∧ subtractNodes [0; 1; 2] path123 twoSelfLoops = (residual, Return [3; 4])
  ∧ Node.id (deref residual 3) = Node.id (deref twoSelfLoops 0)
  ∧ Node.id (deref residual 4) = Node.id (deref twoSelfLoops 1)
  ∧ findAllLoops residual [3; 4] = Return [[Edge.new "g" "2" "2"]]
  ∧ cofactor [0; 1; 2] path123 twoSelfLoops
    = (residual,
       Return (subtract (add (constant 0) (constant 1))
                        (multiply (constant 1) (parse "(g)")))).
Proof.
  intros residual.
  assert (Hsub : subtractNodes [0; 1; 2] path123 twoSelfLoops = (residual, Return [3; 4]))
    by (vm_compute; reflexivity).
  assert (Hloops : findAllLoops residual [3; 4] = Return [[Edge.new "g" "2" "2"]])
    by (vm_compute; reflexivity).
  split; [vm_compute; reflexivity|]. split; [exact Hsub|].
  split; [reflexivity|]. split; [reflexivity|]. split; [exact Hloops|].
  unfold cofactor, bindM at 1. rewrite Hsub.
  unfold bindM at 1, readM. rewrite Hloops. reflexivity.
Qed.

(** The claim C4 fails on the chain: the search from the first root
    leaves the mark of that root in [visited], so the searches from the
    later roots do not start from the marks that the first one started
    from. *)
Lemma root_mark_survives :
  dfsFindLoops (dfsFuel [0; 1; 2]) (chain "a" "b" "f" false) [0; 1; 2] 0 "1"
    (mkDfs [] [] [])
  = Return (mkDfs ["1"] [] [])
  ∧ ¬ (∀ (h : store) (nodes : list loc) (node : loc) (st st' : DfsState),
          dfsFindLoops (dfsFuel nodes) h nodes node (Node.id (deref h node)) st
          = Return st' →
          visited st' = visited st).
Proof.
  assert (Hrun : dfsFindLoops (dfsFuel [0; 1; 2]) (chain "a" "b" "f" false) [0; 1; 2]
                   0 "1" (mkDfs [] [] []) = Return (mkDfs ["1"] [] []))
    by (vm_compute; reflexivity).
  split; [exact Hrun|]. intros Hclaim.
  specialize (Hclaim (chain "a" "b" "f" false) [0; 1; 2] 0 (mkDfs [] [] []) _ Hrun).
  discriminate Hclaim.
Qed.

(** Why the mark of a root is kept.  In [danglingGraph] the loop
    1 -> 2 -> 1 comes out once, from the root 1.  The search from the root
    2 finds nothing because node 1 is still marked; started from an empty
    [visited] it would bring the same loop a second time. *)
Lemma shared_marks_avoid_duplicates :
  findAllLoops danglingGraph [0; 1]
  = Return [[Edge.new "a" "1" "2"; Edge.new "b" "2" "1"]]
  ∧ dfsFindLoops (dfsFuel [0; 1]) danglingGraph [0; 1] 1 "2" (mkDfs ["1"] [] [])
    = Return (mkDfs ["1"; "2"] [] [])
  ∧ dfsFindLoops (dfsFuel [0; 1]) danglingGraph [0; 1] 1 "2" (mkDfs [] [] [])
    = Return (mkDfs ["2"] [] [[Edge.new "b" "2" "1"; Edge.new "a" "1" "2"]]).
Proof. repeat split; vm_compute; reflexivity. Qed.

(** The claim C8 fails when a reference does not resolve: no numerator is
    returned for a start id that is not in the chain, nor for
    [danglingGraph]. *)
Lemma calculateNumerator_not_always_returned :
  calculateNumerator (engine := Z_engine) "7" "3" [0; 1; 2] (chain "a" "b" "f" false)
  = (chain "a" "b" "f" false, TypeError)
  ∧ calculateNumerator (engine := Z_engine) "1" "2" [0; 1] danglingGraph
    = (danglingGraph, TypeError)
  ∧ ¬ (∀ (start end_ : string) (nodes : list loc) (h : store),
          ∃ h' numer,
            calculateNumerator (engine := Z_engine) start end_ nodes h
            = (h', Return (Some numer))).
Proof.
  assert (Hrun : calculateNumerator (engine := Z_engine) "1" "2" [0; 1] danglingGraph
                 = (danglingGraph, TypeError)) by (vm_compute; reflexivity).
  split; [vm_compute; reflexivity|].
  split; [exact Hrun|]. intros Hclaim.
  destruct (Hclaim "1" "2" [0; 1] danglingGraph) as (h' & numer & Hret).
  rewrite Hrun in Hret. discriminate Hret.
Qed.

(** ** The theorems at concrete inputs *)

Lemma Z_engine_laws : EngineLaws (engine := Z_engine).
Proof.
  split; [|reflexivity].
  constructor; intros; cbn; lia.
Qed.

Lemma calculateDenominator_mason_witness :
  calculateDenominator (engine := Z_engine)
    [[Edge.new "f" "2" "2"]; [Edge.new "gg" "3" "3"]]
    [(2, [[Edge.new "gg" "3" "3"; Edge.new "f" "2" "2"]])]
  = masonDelta (engine := Z_engine)
      [[Edge.new "f" "2" "2"]; [Edge.new "gg" "3" "3"]]
      [(2, [[Edge.new "gg" "3" "3"; Edge.new "f" "2" "2"]])].
Proof.
  exact (proj1 (calculateDenominator_mason Z_engine_laws _ _)).
Defined.

Lemma findNonTouching_levels_witness :
  ∃ m,
    findNonTouching
      [[Edge.new "f" "2" "2"]; [Edge.new "g" "3" "3"]; [Edge.new "k" "4" "4"]]
    = Return m
    ∧ is_Some (Map_get 3 m) ∧ Map_get 4 m = None ∧ Map_get 5 m = None.
Proof.
  destruct (findNonTouching_levels
              [[Edge.new "f" "2" "2"]; [Edge.new "g" "3" "3"]; [Edge.new "k" "4" "4"]])
    as (m & Hrun & _ & _ & _ & Hstop).
  exists m. split; [exact Hrun|].
  vm_compute in Hrun. injection Hrun as <-.
  split; [by eexists|]. split; [reflexivity|].
  apply (Hstop 4 5); [lia|reflexivity].
Defined.

Lemma findNonTouching_two_disjoint_witness :
  findNonTouching [[Edge.new "f" "2" "2"]; [Edge.new "g" "3" "3"]]
  = Return [(2, [[Edge.new "g" "3" "3"; Edge.new "f" "2" "2"]])].
Proof.
  refine (proj1 (findNonTouching_two_disjoint
                   [Edge.new "f" "2" "2"] [Edge.new "g" "3" "3"] _ _ _)).
  - discriminate.
  - discriminate.
  - intros x Hx Hx'. cbn in Hx, Hx'.
    apply list_elem_of_singleton in Hx. apply list_elem_of_singleton in Hx'.
    subst x. discriminate Hx'.
Defined.

Lemma dfsFindLoops_marks_witness :
  (∃ st', dfsFindLoops (dfsFuel [0; 1; 2]) (chain "a" "b" "f" false) [0; 1; 2]
            0 "1" (mkDfs [] [] []) = Return st'
          ∧ visited st' = ["1"] ∧ stack st' = [])
  ∧ (∃ st', dfsFindLoops (dfsFuel [0; 1; 2]) (chain "a" "b" "f" false) [0; 1; 2]
              1 "1" (mkDfs ["1"] [Edge.new "a" "1" "2"] []) = Return st'
            ∧ visited st' = ["1"] ∧ stack st' = []).
Proof.
  split.
  - destruct (dfsFindLoops_marks (chain "a" "b" "f" false) [0; 1; 2] 0 "1"
                (mkDfs [] [] [])) as (st' & Hrun & _ & Hroot & _).
    exists st'. split; [exact Hrun|]. apply Hroot. reflexivity.
  - destruct (dfsFindLoops_marks (chain "a" "b" "f" false) [0; 1; 2] 1 "1"
                (mkDfs ["1"] [Edge.new "a" "1" "2"] [])) as (st' & Hrun & Hinner & _).
    exists st'. split; [exact Hrun|]. apply Hinner. discriminate.
Defined.

Lemma chain_transfer_function_witness :
  ∃ h' numer,
    calculateNumerator (engine := Z_engine) "1" "3" [0; 1; 2] (chain "a" "bb" "f" true)
    = (h', Return (Some numer))
    ∧ numer = 12%Z.
Proof.
  destruct (chain_transfer_function "a" "bb" "f" true Z_engine_laws)
    as (_ & _ & h' & numer & Hrun & Hnumer).
  exists h', numer. split; [exact Hrun|]. rewrite Hnumer. reflexivity.
Defined.

Lemma calculateNumerator_returns_witness :
  ∃ h' numer,
    calculateNumerator (engine := Z_engine) "1" "3" [0; 1; 2] (chain "a" "b" "f" false)
    = (h', Return (Some numer)).
Proof.
  apply (calculateNumerator_returns (engine := Z_engine)).
  - vm_compute. by eexists.
  - unfold noDangling. apply (bool_decide_unpack _). vm_compute. exact I.
Defined.

(** * Further properties *)

(** ** The cycles that are found *)

Lemma walk_snoc (h : store) (nodes : list loc) (from curr v : loc)
    (es : list Edge.t) (e : Edge.t) :
  walk h nodes from es curr →
  e ∈ Node.outgoingEdges (deref h curr) →
  findNode h nodes (Edge.endNode e) = Some v →
  walk h nodes from (es ++ [e]) v.
Proof.
  revert from. induction es as [|e0 es IH]; intros from Hw He Hv; cbn in *.
  - subst curr. split; [done|]. by exists v.
  - destruct Hw as (Hin & v0 & Hv0 & Hw). split; [done|].
    exists v0. split; [done|]. by apply IH.
Qed.

Section DfsCycles.
Variables (h : store) (nodes : list loc) (root : loc) (marked : list string).
Hypothesis root_in : root ∈ nodes.

(** What the loop over the edges of [curr] needs of the recursive call
    and gives back. *)
Lemma dfsEdges_cycles (rec : loc → DfsState → result DfsState)
    (curr : loc) (edges : list Edge.t) (st st' : DfsState) :
  (∀ v st0 st1,
      rec v st0 = Return st1 →
      Node.id (deref h v) ≠ (Node.id (deref h root)) →
      dfsInv h nodes root marked v
        (mkDfs (visited st0 ++ [Node.id (deref h v)]) (stack st0) (cycles st0)) →
      visited st1 = visited st0 ∧ stack st1 = removelast (stack st0)
      ∧ Forall (simpleCycle h nodes) (cycles st1)) →
  (∀ e, e ∈ edges → e ∈ Node.outgoingEdges (deref h curr)) →
  dfsEdges rec h nodes (Node.id (deref h root)) edges st = Return st' →
  dfsInv h nodes root marked curr st →
  dfsInv h nodes root marked curr st'
  ∧ visited st' = visited st ∧ stack st' = stack st.
Proof using root_in.
  intros Hrec. revert st.
  induction edges as [|edge rest IH]; intros st Hsub Hrun Hinv; cbn [dfsEdges] in Hrun.
  - by injection Hrun as <-.
  - assert (Hrest : ∀ e, e ∈ rest → e ∈ Node.outgoingEdges (deref h curr)).
    { intros e He. apply Hsub. by right. }
    assert (Hedge : edge ∈ Node.outgoingEdges (deref h curr)) by (apply Hsub; left).
    destruct (findNode h nodes (Edge.endNode edge)) as [v|] eqn:Hfind;
      [|by apply IH].
    pose proof (findNode_Some _ _ _ _ Hfind) as [_ Hvid].
    destruct Hinv as (Hwalk & Hvis & Hnd & Hcyc).
    destruct (String.eqb (Node.id (deref h v)) (Node.id (deref h root))) eqn:Hroot.
    + apply String.eqb_eq in Hroot.
      apply IH in Hrun; [|done|].
      * cbn in Hrun. by rewrite removelast_last in Hrun.
      * split; cbn; rewrite removelast_last; [done|]. split; [done|]. split; [done|].
        apply Forall_app. split; [done|]. apply Forall_singleton.
        exists root. split; [done|]. split.
        -- exists (stack st), edge, curr. by rewrite <- Hvid, Hroot.
        -- rewrite fmap_app. cbn. rewrite <- Hvid, Hroot.
           eapply NoDup_Permutation_proper; [|exact Hnd].
           by rewrite Permutation_app_comm.
    + apply String.eqb_neq in Hroot.
      destruct (bool_decide (Node.id (deref h v) ∈ visited st)) eqn:Hseen;
        cbn [negb] in Hrun; [by apply IH|].
      apply bool_decide_eq_false in Hseen.
      destruct (rec v (mkDfs (visited st) (stack st ++ [edge]) (cycles st)))
        as [st1| |] eqn:Hcall; cbn [bindR] in Hrun; [|done..].
      apply Hrec in Hcall; [|done|].
      * cbn in Hcall. rewrite removelast_last in Hcall.
        destruct Hcall as (Hv1 & Hs1 & Hc1).
        apply IH in Hrun; [|done|].
        -- destruct Hrun as (Hinv' & Hv' & Hs'). split; [done|]. split; congruence.
        -- split; [by rewrite Hs1|]. rewrite Hv1, Hs1. by split.
      * split; cbn; [by eapply walk_snoc|].
        rewrite fmap_app. cbn. rewrite <- Hvid.
        split; [by rewrite Hvis, <- app_assoc|]. split; [|done].
        rewrite app_comm_cons. apply NoDup_app. split; [done|].
        split; [|apply NoDup_singleton].
        intros x Hx ->%list_elem_of_singleton. apply Hseen.
        rewrite Hvis. apply elem_of_app. by right.
Qed.

Lemma dfsFindLoops_cycles (fuel : nat) (curr : loc) (st st' : DfsState) :
  dfsFindLoops fuel h nodes curr (Node.id (deref h root)) st = Return st' →
  dfsInv h nodes root marked curr
    (mkDfs (visited st ++ [Node.id (deref h curr)]) (stack st) (cycles st)) →
  Forall (simpleCycle h nodes) (cycles st')
  ∧ (Node.id (deref h curr) ≠ (Node.id (deref h root)) →
     visited st' = visited st ∧ stack st' = removelast (stack st))
  ∧ (Node.id (deref h curr) = (Node.id (deref h root)) → stack st' = stack st).
Proof using root_in.
  revert curr st st'. induction fuel as [|fuel IH]; intros curr st st' Hrun Hinv;
    [done|].
  rewrite dfsFindLoops_S in Hrun. cbv zeta in Hrun.
  destruct (dfsEdges _ h nodes (Node.id (deref h root)) _ _) as [st2| |] eqn:Hloop;
    cbn [bindR] in Hrun; [|done..].
  apply (dfsEdges_cycles _ curr) in Hloop; [|
    intros v st0 st1 Hcall Hne Hpre;
    destruct (IH v st0 st1 Hcall Hpre) as (Hc & Hpop & _);
    destruct (Hpop Hne); done |done|done].
  destruct Hloop as ((_ & _ & _ & Hcyc) & Hv & Hs). cbn in Hv, Hs.
  destruct (String.eqb (Node.id (deref h curr)) (Node.id (deref h root))) eqn:Hroot; cbn [negb] in Hrun;
    injection Hrun as <-; cbn.
  - apply String.eqb_eq in Hroot. by repeat split.
  - apply String.eqb_neq in Hroot. split; [done|]. split; [|done].
    intros _. by rewrite Hv, Hs, removelast_last.
Qed.
End DfsCycles.

Lemma findAllLoops_roots_cycles (fuel : nat) (h : store) (nodes roots : list loc)
    (st st' : DfsState) :
  (∀ r, r ∈ roots → r ∈ nodes) →
  findAllLoops_roots fuel h nodes roots st = Return st' →
  stack st = [] →
  Forall (simpleCycle h nodes) (cycles st) →
  Forall (simpleCycle h nodes) (cycles st').
Proof.
  revert st. induction roots as [|r roots IH]; intros st Hsub Hrun Hstack Hcyc;
    cbn [findAllLoops_roots] in Hrun.
  - by injection Hrun as <-.
  - destruct (dfsFindLoops fuel h nodes r _ st) as [st1| |] eqn:Hcall;
      cbn [bindR] in Hrun; [|done..].
    apply (dfsFindLoops_cycles h nodes r (visited st)) in Hcall.
    + destruct Hcall as (Hc1 & _ & Hs1).
      apply IH in Hrun; [done| |by rewrite Hs1|done].
      intros r' Hr'. apply Hsub. by right.
    + apply Hsub. left.
    + split; cbn; rewrite Hstack; [done|]. split; [done|].
      split; [apply NoDup_singleton|done].
Qed.

(** X1.  [findAllLoops] returns for every graph, and every cycle it
    returns is a closed walk from a node of the graph: it is not empty,
    its first edge leaves that node, every other edge leaves the node that
    the destination of the edge before it resolves to, its last edge ends
    at the id of the first node, and no two of its edges end at the same
    id. *)
Theorem findAllLoops_simple_cycles (h : store) (nodes : list loc) :
  ∃ allLoops,
    findAllLoops h nodes = Return allLoops
    ∧ Forall (λ c, c ≠ [] ∧ simpleCycle h nodes c) allLoops.
Proof.
  unfold findAllLoops, findAllLoops_state.
  destruct (findAllLoops_roots_post h nodes nodes (mkDfs [] [] []))
    as (st & Hrun & _).
  rewrite Hrun. exists (cycles st). split; [done|].
  apply findAllLoops_roots_cycles in Hrun; [|done..].
  eapply Forall_impl; [exact Hrun|].
  intros c Hc. split; [|done].
  destruct Hc as (r & _ & (es & e & curr & -> & _) & _). by destruct es.
Qed.

(** ** Self-loops are found *)

Lemma dfsEdges_app (rec : loc → DfsState → result DfsState) (h : store)
    (nodes : list loc) (startId : string) (es1 es2 : list Edge.t) (st : DfsState) :
  dfsEdges rec h nodes startId (es1 ++ es2) st
  = let* st1 := dfsEdges rec h nodes startId es1 st in
    dfsEdges rec h nodes startId es2 st1.
Proof.
  revert st. induction es1 as [|e es1 IH]; intros st; cbn [app dfsEdges bindR]; [done|].
  destruct (findNode h nodes (Edge.endNode e)) as [v|]; [|apply IH].
  destruct (String.eqb _ startId); [apply IH|].
  destruct (negb _); [|apply IH].
  destruct (rec v _) as [st1| |]; cbn [bindR]; [apply IH|done..].
Qed.

Lemma findNode_resolves (h : store) (nodes : list loc) (n : loc) :
  n ∈ nodes → ∃ v, findNode h nodes (Node.id (deref h n)) = Some v
                   ∧ Node.id (deref h v) = Node.id (deref h n).
Proof.
  intros Hn. unfold findNode.
  destruct (List.find _ nodes) as [v|] eqn:Hfind.
  - exists v. split; [done|]. apply find_some in Hfind as [_ Heq].
    by apply String.eqb_eq.
  - apply list_elem_of_In in Hn.
    pose proof (find_none _ _ Hfind n Hn) as Hno. cbv beta in Hno.
    by rewrite String.eqb_refl in Hno.
Qed.

(** The search from a node that has a self-loop records the self-loop as
    a cycle of one edge. *)
Lemma dfsFindLoops_self_loop (h : store) (nodes : list loc) (n : loc) (e : Edge.t)
    (st : DfsState) :
  n ∈ nodes →
  e ∈ Node.outgoingEdges (deref h n) →
  Edge.endNode e = Node.id (deref h n) →
  stack st = [] →
  ∃ st',
    dfsFindLoops (dfsFuel nodes) h nodes n (Node.id (deref h n)) st = Return st'
    ∧ stack st' = [] ∧ [e] ∈ cycles st'.
Proof.
  intros Hn He Hend Hstack. unfold dfsFuel. rewrite dfsFindLoops_S. cbv zeta.
  apply list_elem_of_split in He as (es1 & es2 & Hes). rewrite Hes, dfsEdges_app.
  assert (Hrec : ∀ fuel' curr st0,
            length nodes = S fuel' →
            unvisited h nodes (visited st0 ++ [Node.id (deref h curr)]) ≤ fuel' →
            dfsPost h (Node.id (deref h n)) curr st0
              (dfsFindLoops (length nodes) h nodes curr (Node.id (deref h n)) st0)).
  { intros fuel' curr st0 -> Hle. by apply dfsFindLoops_post. }
  destruct (dfsEdges_post h nodes (Node.id (deref h n)) (length nodes) es1
              (mkDfs (visited st ++ [Node.id (deref h n)]) (stack st) (cycles st)) Hrec)
    as (sta & -> & Hva & Hsa & _); [apply unvisited_le|].
  cbn [bindR dfsEdges]. cbn in Hsa.
  destruct (findNode_resolves h nodes n Hn) as (v & Hv & Hvid).
  rewrite Hend, Hv, Hvid, String.eqb_refl.
  destruct (dfsEdges_post h nodes (Node.id (deref h n)) (length nodes) es2
              (mkDfs (visited sta) (removelast (stack sta ++ [e]))
                     (cycles sta ++ [stack sta ++ [e]])) Hrec)
    as (stb & -> & _ & Hsb & Hcb); [apply unvisited_le|].
  cbn [bindR negb]. cbn in Hsb, Hcb. exists stb. split; [done|].
  rewrite removelast_last in Hsb. split; [congruence|].
  destruct Hcb as [more ->]. rewrite Hsa, Hstack.
  apply elem_of_app. left. apply elem_of_app. right. left.
Qed.

Lemma findAllLoops_roots_self_loop (h : store) (nodes roots : list loc)
    (n : loc) (e : Edge.t) (st : DfsState) :
  n ∈ nodes →
  e ∈ Node.outgoingEdges (deref h n) →
  Edge.endNode e = Node.id (deref h n) →
  stack st = [] →
  n ∈ roots ∨ [e] ∈ cycles st →
  ∃ st',
    findAllLoops_roots (dfsFuel nodes) h nodes roots st = Return st'
    ∧ [e] ∈ cycles st'.
Proof.
  intros Hn He Hend. revert st.
  induction roots as [|r roots IH]; intros st Hstack Hcase; cbn [findAllLoops_roots].
  - destruct Hcase as [Hin|Hin]; [by apply elem_of_nil in Hin|by exists st].
  - destruct (decide (r = n)) as [->|Hne].
    + destruct (dfsFindLoops_self_loop h nodes n e st) as (st1 & -> & Hs1 & Hc1);
        [done..|].
      cbn [bindR]. apply IH; [done|by right].
    + destruct (dfsFindLoops_total h nodes (Node.id (deref h r)) r st)
        as (st1 & -> & _ & Hs1 & Hc1).
      rewrite String.eqb_refl in Hs1. cbn [bindR].
      apply IH; [congruence|].
      destruct Hcase as [Hin|Hin].
      * left. apply elem_of_cons in Hin as [?|?]; [congruence|done].
      * right. destruct Hc1 as [more ->]. apply elem_of_app. by left.
Qed.

(** X2.  A self-loop is always reported: when a node of the graph has an
    outgoing edge that ends at its own id, the edge alone is one of the
    cycles of [findAllLoops]. *)
Theorem findAllLoops_self_loop (h : store) (nodes : list loc) (n : loc)
    (e : Edge.t) :
  n ∈ nodes →
  e ∈ Node.outgoingEdges (deref h n) →
  Edge.endNode e = Node.id (deref h n) →
  ∃ allLoops, findAllLoops h nodes = Return allLoops ∧ [e] ∈ allLoops.
Proof.
  intros Hn He Hend. unfold findAllLoops, findAllLoops_state.
  destruct (findAllLoops_roots_self_loop h nodes nodes n e (mkDfs [] [] []))
    as (st & -> & Hin); [done..|by left|].
  by exists (cycles st).
Qed.

Lemma findAllLoops_self_loop_witness :
  ∃ allLoops,
    findAllLoops (chain "a" "b" "f" true) [0; 1; 2] = Return allLoops
    ∧ [Edge.new "f" "2" "2"] ∈ allLoops.
Proof.
  apply (findAllLoops_self_loop (chain "a" "b" "f" true) [0; 1; 2] 1).
  - apply list_elem_of_further, list_elem_of_here.
  - apply list_elem_of_here.
  - reflexivity.
Defined.

(** ** The forward paths that are found *)

Section PathShape.
Variables (h : store) (nodes : list loc) (e : loc).

(** The paths added by a call that returns: each extends the current
    path by [start], ends at the end node, has no node twice and is
    linked. *)
Lemma findForwardPaths_shape (fuel : nat) (start : option loc)
    (paths paths' : list path) (currPath : path) :
  findForwardPaths fuel h start (Some e) nodes paths currPath = Return paths' →
  NoDup currPath →
  Some e ∉ currPath →
  Forall is_Some currPath →
  (∀ s, start = Some s → linked h (currPath ++ [Some s])) →
  ∃ found,
    paths' = paths ++ found
    ∧ Forall (λ p, (currPath ++ [start]) `prefix_of` p
                   ∧ last p = Some (Some e) ∧ NoDup p ∧ linked h p) found.
Proof.
  revert start paths paths' currPath.
  induction fuel as [|fuel IH]; intros start paths paths' currPath Hrun Hnd Hend Hsome Hl;
    [done|].
  rewrite findForwardPaths_S in Hrun.
  case_bool_decide as Hat.
  { injection Hrun as <-. subst start. exists [currPath ++ [Some e]].
    split; [done|]. apply Forall_singleton. split; [done|].
    split; [apply last_snoc|]. split; [|by apply Hl].
    apply NoDup_app. split; [done|]. split; [|apply NoDup_singleton].
    by intros x Hx ->%list_elem_of_singleton. }
  case_bool_decide as Hseen.
  { injection Hrun as <-. exists []. by rewrite app_nil_r. }
  destruct start as [s|]; [|done].
  destruct (_ <? 1)%nat.
  { injection Hrun as <-. exists []. by rewrite app_nil_r. }
  assert (Hnd' : NoDup (currPath ++ [Some s])).
  { apply NoDup_app. split; [done|]. split; [|apply NoDup_singleton].
    by intros x Hx ->%list_elem_of_singleton. }
  assert (Hend' : Some e ∉ currPath ++ [Some s]).
  { rewrite not_elem_of_app. split; [done|].
    intros Heq%list_elem_of_singleton. by apply Hat. }
  assert (Hsome' : Forall is_Some (currPath ++ [Some s])).
  { apply Forall_app. split; [done|]. by apply Forall_singleton. }
  assert (Hedges : ∀ x, x ∈ Node.outgoingEdges (deref h s)
                        → x ∈ Node.outgoingEdges (deref h s)) by done.
  revert Hrun Hedges. generalize (Node.outgoingEdges (deref h s)) at 1 2.
  intros edges. revert paths.
  induction edges as [|edge rest IHe]; intros paths Hrun Hedges;
    cbn [forwardEdges] in Hrun.
  { injection Hrun as <-. exists []. by rewrite app_nil_r. }
  destruct (findForwardPaths fuel h _ (Some e) nodes paths (currPath ++ [Some s]))
    as [paths1| |] eqn:Hcall; cbn [bindR] in Hrun; [|done..].
  apply IH in Hcall; [|done..|].
  - destruct Hcall as (found1 & -> & Hf1).
    apply IHe in Hrun; [|intros x Hx; apply Hedges; by right].
    destruct Hrun as (found2 & -> & Hf2).
    exists (found1 ++ found2). rewrite app_assoc. split; [done|].
    apply Forall_app. split; [|done].
    eapply Forall_impl; [exact Hf1|]. intros p (Hpre & Hrest). split; [|done].
    etrans; [|exact Hpre]. by apply prefix_app_r.
  - intros v Hv. apply findNode_Some in Hv as [_ Hvid].
    apply (linked_snoc h currPath s v edge); [by apply Hl|apply Hedges; left|done].
Qed.
End PathShape.

(** X3.  When [findForwardPaths] returns for two nodes of the graph, every
    path it returns begins with the start node, ends with the end node,
    holds no node twice, and each of its nodes has an outgoing edge that
    ends at the id of the next node. *)
Theorem findForwardPaths_simple_paths (h : store) (nodes : list loc) (s e : loc)
    (paths : list path) :
  findForwardPaths (pathFuel nodes) h (Some s) (Some e) nodes [] [] = Return paths →
  Forall (simplePath h (Some s) (Some e)) paths.
Proof.
  intros Hrun.
  apply findForwardPaths_shape in Hrun; [|by constructor|apply not_elem_of_nil|done|done].
  destruct Hrun as (found & -> & Hf). cbn [app] in *.
  eapply Forall_impl; [exact Hf|].
  intros p (Hpre & Hlast & Hnd & Hl). split; [|done].
  destruct Hpre as [k ->]. reflexivity.
Qed.

Lemma findForwardPaths_simple_paths_witness :
  Forall (simplePath twoSelfLoops (Some 0) (Some 2)) [path123].
Proof.
  apply (findForwardPaths_simple_paths twoSelfLoops [0; 1; 2] 0 2).
  vm_compute. reflexivity.
Defined.

(** ** No forward path *)

Lemma findForwardPaths_last (h : store) (nodes : list loc) (end_ : option loc)
    (fuel : nat) (start : option loc) (paths paths' : list path) (currPath : path) :
  findForwardPaths fuel h start end_ nodes paths currPath = Return paths' →
  ∃ found, paths' = paths ++ found ∧ Forall (λ p, last p = Some end_) found.
Proof.
  revert start paths paths' currPath.
  induction fuel as [|fuel IH]; intros start paths paths' currPath Hrun; [done|].
  rewrite findForwardPaths_S in Hrun.
  case_bool_decide as Hat.
  { injection Hrun as <-. subst start. exists [currPath ++ [end_]].
    split; [done|]. apply Forall_singleton, last_snoc. }
  case_bool_decide as Hseen.
  { injection Hrun as <-. exists []. by rewrite app_nil_r. }
  destruct start as [s|]; [|done].
  destruct (_ <? 1)%nat.
  { injection Hrun as <-. exists []. by rewrite app_nil_r. }
  revert Hrun. generalize (Node.outgoingEdges (deref h s)). intros edges. revert paths.
  induction edges as [|edge rest IHe]; intros paths Hrun; cbn [forwardEdges] in Hrun.
  { injection Hrun as <-. exists []. by rewrite app_nil_r. }
  destruct (findForwardPaths fuel h _ end_ nodes paths (currPath ++ [Some s]))
    as [paths1| |] eqn:Hcall; cbn [bindR] in Hrun; [|done..].
  apply IH in Hcall as (found1 & -> & Hf1).
  apply IHe in Hrun as (found2 & -> & Hf2).
  exists (found1 ++ found2). rewrite app_assoc. split; [done|]. by apply Forall_app.
Qed.

(** With an end id that does not resolve, and no edge without a
    destination, no path is ever recorded. *)
Lemma findForwardPaths_unresolved_end (h : store) (nodes : list loc) (s : loc) :
  noDangling h nodes → s ∈ nodes →
  findForwardPaths (pathFuel nodes) h (Some s) None nodes [] [] = Return [].
Proof.
  intros Hnd Hs.
  destruct (findForwardPaths_linked h nodes None (pathFuel nodes) s [] [] Hnd)
    as (found & Hrun & Hl); [|done|done|].
  { unfold pathFuel. pose proof (offPath_le nodes []). lia. }
  rewrite Hrun. f_equal. cbn [app].
  destruct (findForwardPaths_last _ _ _ _ _ _ _ _ Hrun) as (found' & Heq & Hlast).
  cbn [app] in Heq. subst found'.
  destruct found as [|p found]; [done|]. exfalso.
  apply Forall_cons in Hl as [Hp _]. apply Forall_cons in Hlast as [Hlp _].
  pose proof (linked_all_Some h p Hp) as Hall.
  apply last_Some in Hlp as [p' ->].
  rewrite Forall_app, Forall_singleton in Hall. destruct Hall as [_ [x Hx]].
  discriminate Hx.
Qed.

Section NoPath.
Context {Expression : Type} {engine : Engine Expression}.

(** X4.  When the enumeration finds no forward path, [calculateNumerator]
    returns the expression [new Expression(0)] itself and allocates
    nothing.  That is the case when the start id resolves, the end id does
    not, and every edge of the graph ends at a node of the graph. *)
Theorem calculateNumerator_no_path (start end_ : string) (nodes : list loc)
    (h : store) :
  (findForwardPaths (pathFuel nodes) h (findNode h nodes start)
     (findNode h nodes end_) nodes [] [] = Return [] →
   calculateNumerator start end_ nodes h = (h, Return (Some (constant 0))))
  ∧ (is_Some (findNode h nodes start) → findNode h nodes end_ = None →
     noDangling h nodes →
     calculateNumerator start end_ nodes h = (h, Return (Some (constant 0)))).
Proof.
  assert (Hzero : findForwardPaths (pathFuel nodes) h (findNode h nodes start)
                    (findNode h nodes end_) nodes [] [] = Return [] →
                  calculateNumerator start end_ nodes h
                  = (h, Return (Some (constant 0)))).
  { intros Hrun. rewrite calculateNumerator_eq, Hrun. reflexivity. }
  split; [exact Hzero|].
  intros [s Hs] Hend Hnd. apply Hzero. rewrite Hs, Hend.
  apply findForwardPaths_unresolved_end; [done|].
  by apply findNode_Some in Hs as [? _].
Qed.
End NoPath.

Lemma calculateNumerator_no_path_witness :
  calculateNumerator (engine := Z_engine) "3" "1" [0; 1; 2] (chain "a" "b" "f" false)
  = (chain "a" "b" "f" false, Return (Some 0%Z))
  ∧ calculateNumerator (engine := Z_engine) "1" "7" [0; 1; 2] (chain "a" "b" "f" false)
    = (chain "a" "b" "f" false, Return (Some 0%Z)).
Proof.
  split.
  - apply (proj1 (calculateNumerator_no_path (engine := Z_engine) _ _ _ _)).
    vm_compute. reflexivity.
  - apply (proj2 (calculateNumerator_no_path (engine := Z_engine) _ _ _ _)).
    + vm_compute. by eexists.
    + reflexivity.
    + unfold noDangling. apply (bool_decide_unpack _). vm_compute. exact I.
Defined.

(** ** Ids that do not resolve *)

Lemma subtractLoop_undefined_throws (h made : store) (ns subgraph : list loc) :
  Exists (λ n, Node.outgoingEdges (deref h n) ≠ []) ns →
  (subtractLoop [None] (seq (length h + length made) (length ns)) subgraph
     (h ++ made ++ (copyOf h <$> ns))).2 = TypeError.
Proof.
  revert made subgraph. induction ns as [|n rest IH]; intros made subgraph Hex.
  { by apply Exists_nil in Hex. }
  cbn [length seq fmap list_fmap subtractLoop].
  unfold bindM at 1, readM. rewrite deref_middle.
  rewrite bool_decide_eq_false_2; [cbn [negb andb]|].
  2:{ intros Hin%list_elem_of_singleton. discriminate Hin. }
  destruct (Node.outgoingEdges (copyOf h n)) as [|e es] eqn:Hout;
    cbn [length Nat.ltb Nat.leb].
  - apply Exists_cons in Hex as [Hn|Hrest].
    { cbn in Hout. apply fmap_nil_inv in Hout. done. }
    replace (S (length h + length made))
      with (length h + length (made ++ [copyOf h n]))
      by (rewrite length_app; simpl; lia).
    replace (h ++ made ++ copyOf h n :: (copyOf h <$> rest))
      with (h ++ (made ++ [copyOf h n]) ++ (copyOf h <$> rest))
      by (by rewrite <- !app_assoc).
    by apply IH.
  - unfold bindM at 1. cbn [forEachM]. unfold bindM at 1, pruneEdge.
    by rewrite deref_middle, Hout.
Qed.

Lemma subtractLoop_undefined_returns (h made : store) (ns subgraph : list loc) :
  Forall (λ n, Node.outgoingEdges (deref h n) = []) ns →
  subtractLoop [None] (seq (length h + length made) (length ns)) subgraph
    (h ++ made ++ (copyOf h <$> ns))
  = (h ++ made ++ (copyOf h <$> ns), Return subgraph).
Proof.
  revert made subgraph. induction ns as [|n rest IH]; intros made subgraph Hall;
    [done|].
  apply Forall_cons in Hall as [Hn Hrest].
  cbn [length seq fmap list_fmap subtractLoop].
  unfold bindM at 1, readM. rewrite deref_middle.
  cbn [copyOf Node.outgoingEdges]. rewrite Hn. cbn [fmap list_fmap length Nat.ltb Nat.leb].
  rewrite andb_false_r.
  replace (S (length h + length made))
    with (length h + length (made ++ [copyOf h n]))
    by (rewrite length_app; simpl; lia).
  replace (h ++ made ++ copyOf h n :: (copyOf h <$> rest))
    with (h ++ (made ++ [copyOf h n]) ++ (copyOf h <$> rest))
    by (by rewrite <- !app_assoc).
  by apply IH.
Qed.

Section UnresolvedStart.
Context {Expression : Type} {engine : Engine Expression}.

(** X5.  The start id is never checked.  When it does not resolve and the
    end id does, [calculateNumerator] ends on a [TypeError] before anything
    is allocated.  When neither id resolves, [undefined === undefined]
    counts as reaching the end node, and the path that holds only
    [undefined] is recorded: the call then ends on a [TypeError] as soon
    as a node of the graph has an outgoing edge, and returns [0 + 1 * (0 +
    1)] when no node has one. *)
Theorem calculateNumerator_unresolved_start (start end_ : string)
    (nodes : list loc) (h : store) :
  findNode h nodes start = None →
  (is_Some (findNode h nodes end_) →
   calculateNumerator start end_ nodes h = (h, TypeError))
  ∧ (findNode h nodes end_ = None →
     Forall (λ n, n < length h) nodes →
     (Exists (λ n, Node.outgoingEdges (deref h n) ≠ []) nodes →
      (calculateNumerator start end_ nodes h).2 = TypeError)
     ∧ (Forall (λ n, Node.outgoingEdges (deref h n) = []) nodes →
        calculateNumerator start end_ nodes h
        = (h ++ (copyOf h <$> nodes),
           Return (Some (add (constant 0)
                             (multiply (constant 1)
                                       (add (constant 0) (constant 1)))))))).
Proof.
  intros Hstart. rewrite calculateNumerator_eq, Hstart. split.
  - intros [e ->]. reflexivity.
  - intros -> Hlive.
    change (findForwardPaths (pathFuel nodes) h None None nodes [] [])
      with (Return (A := list path) [[None]]).
    cbn [getForwardPathsLoopgains extractPathEdges bindR calculateLoopGain_from cofactors].
    split.
    + intros Hex.
      unfold bindM at 1, cofactor, bindM at 1, subtractNodes, bindM at 1.
      rewrite copyNodes_exact by done. cbn [app].
      pose proof (subtractLoop_undefined_throws h [] nodes [] Hex) as Hthrow.
      cbn [length app] in Hthrow. rewrite Nat.add_0_r in Hthrow.
      destruct (subtractLoop [None] _ [] _) as [h1 r]. cbn [snd] in Hthrow.
      by subst r.
    + intros Hall.
      unfold bindM at 1, cofactor, bindM at 1, subtractNodes, bindM at 1.
      rewrite copyNodes_exact by done. cbn [app].
      pose proof (subtractLoop_undefined_returns h [] nodes [] Hall) as Hret.
      cbn [length app] in Hret. rewrite Nat.add_0_r in Hret. rewrite Hret.
      reflexivity.
Qed.
End UnresolvedStart.

Lemma calculateNumerator_unresolved_start_witness :
  calculateNumerator (engine := Z_engine) "7" "3" [0; 1; 2] (chain "a" "b" "f" false)
  = (chain "a" "b" "f" false, TypeError)
  ∧ (calculateNumerator (engine := Z_engine) "7" "8" [0; 1; 2]
       (chain "a" "b" "f" false)).2 = TypeError
  ∧ (calculateNumerator (engine := Z_engine) "7" "8" [0] [Node.new "1" None]).2
    = Return (Some 1%Z).
Proof.
  split; [|split].
  - apply (calculateNumerator_unresolved_start (engine := Z_engine));
      [reflexivity|by eexists].
  - apply (calculateNumerator_unresolved_start (engine := Z_engine));
      [reflexivity|reflexivity| |].
    + repeat constructor.
    + apply Exists_cons_hd. discriminate.
  - pose proof (calculateNumerator_unresolved_start (engine := Z_engine)
                  "7" "8" [0] [Node.new "1" None] eq_refl) as [_ Hboth].
    destruct (Hboth eq_refl) as [_ Hret]; [repeat constructor|].
    rewrite Hret; [reflexivity|]. by repeat constructor.
Defined.

(** ** What the levels of [findNonTouching] hold *)

Lemma touching_false_inv (remainingLoop currLoop : list Edge.t) (x : string) :
  touching remainingLoop currLoop = false →
  x ∈ Edge.endNode <$> remainingLoop → x ∉ Edge.endNode <$> currLoop.
Proof.
  intros Hf (e & -> & He)%list_elem_of_fmap Hin.
  by rewrite (touching_true _ _ e He Hin) in Hf.
Qed.

Lemma touching_concat (loop : list Edge.t) (ls : list (list Edge.t)) :
  touching loop (concat ls) = false →
  Forall (λ l, touching loop l = false) ls.
Proof.
  intros Hf. apply Forall_forall. intros l Hl. apply touching_false.
  intros x Hx Hxl. apply (touching_false_inv _ _ x Hf Hx).
  apply list_elem_of_fmap in Hxl as (e & -> & He).
  apply list_elem_of_fmap_2. apply list_elem_of_In, in_concat.
  exists l. split; by apply list_elem_of_In.
Qed.

Section Levels.
Variable allLoops : list (list Edge.t).

Lemma nonTouchingInner_inv (k : nat) (before : list string) (currLoop : list Edge.t)
    (remaining : list (list Edge.t)) (acc : list string * list (list Edge.t)) :
  nonTouchingSet allLoops k currLoop →
  Forall (λ l, l ∈ allLoops) remaining →
  levelInv allLoops (S k) before acc →
  levelInv allLoops (S k) before (nonTouchingInner currLoop remaining acc).
Proof.
  intros (ls & Hlen & -> & Hin & Hpair). revert acc.
  induction remaining as [|loop rest IH]; intros acc Hrem Hinv; cbn [nonTouchingInner];
    [done|].
  apply Forall_cons in Hrem as [Hloop Hrest].
  case_bool_decide as Hkey; [by apply IH|].
  destruct (touching loop (concat ls)) eqn:Htouch; cbn [negb]; [by apply IH|].
  apply IH; [done|]. destruct Hinv as (Hkeys & Hnd & Hsets).
  split; [|split]; cbn [fst snd].
  - by rewrite Hkeys, fmap_app, app_assoc.
  - apply NoDup_app. split; [done|]. split; [|apply NoDup_singleton].
    by intros x Hx ->%list_elem_of_singleton.
  - apply Forall_app. split; [done|]. apply Forall_singleton.
    exists (loop :: ls). split; [by rewrite <- Hlen|]. split; [done|].
    split; [by constructor|]. constructor; [|done]. by apply touching_concat.
Qed.

Lemma nonTouchingLevel_inv (k : nat) (before : list string)
    (prevSet : list (list Edge.t)) (acc : list string * list (list Edge.t)) :
  Forall (nonTouchingSet allLoops k) prevSet →
  levelInv allLoops (S k) before acc →
  levelInv allLoops (S k) before (nonTouchingLevel allLoops prevSet acc).
Proof.
  intros Hprev. revert acc.
  induction Hprev as [|currLoop rest Hcurr _ IH]; intros acc Hinv; cbn [nonTouchingLevel];
    [done|].
  apply IH. apply nonTouchingInner_inv; [done| |done].
  by apply Forall_forall.
Qed.

Lemma Map_get_elem {V} (k : nat) (v : V) (m : Map V) :
  Map_get k m = Some v → (k, v) ∈ m.
Proof.
  induction m as [|[k' v'] m IH]; [done|]. cbn [Map_get].
  destruct (Nat.eqb_spec k' k) as [->|_]; [intros [= ->]; left|right; auto].
Qed.

Lemma nonTouchingLevels_sets (n i : nat) (levels : Map (list (list Edge.t)))
    (existingGains : list string) :
  2 ≤ i →
  levels.*1 = seq 2 (i - 2) →
  existingGains = canonicalKey <$> concat levels.*2 →
  NoDup existingGains →
  Forall (λ kv, Forall (nonTouchingSet allLoops kv.1) kv.2) levels →
  ∃ levels',
    nonTouchingLevels n i allLoops ((1, allLoops) :: levels) existingGains
    = Return ((1, allLoops) :: levels')
    ∧ NoDup (canonicalKey <$> concat levels'.*2)
    ∧ Forall (λ kv, Forall (nonTouchingSet allLoops kv.1) kv.2) levels'.
Proof.
  revert i levels existingGains.
  induction n as [|n IH]; intros i levels existing Hi Hkeys Hex Hnd Hsets.
  - exists levels. by subst existing.
  - assert (Hfresh : i ∉ levels.*1).
    { rewrite Hkeys. intros Hin%elem_of_seq. lia. }
    assert (Hget : ∃ prevSet,
              Map_get (i - 1) ((1, allLoops) :: levels) = Some prevSet
              ∧ Forall (nonTouchingSet allLoops (i - 1)) prevSet).
    { cbn [Map_get]. destruct (Nat.eqb_spec 1 (i - 1)) as [<-|Hne1].
      - exists allLoops. split; [done|]. apply Forall_forall. intros l Hl.
        exists [l]. split; [done|]. split; [by rewrite <- (app_nil_r l) at 1|].
        split; [by apply Forall_singleton|]. repeat constructor.
      - destruct (Map_get_is_Some (i - 1) levels) as [prevSet Hprev].
        { rewrite Hkeys. apply elem_of_seq. lia. }
        exists prevSet. split; [done|].
        apply Map_get_elem in Hprev. rewrite Forall_forall in Hsets.
        apply (Hsets _ Hprev). }
    destruct Hget as (prevSet & Hget & Hprev).
    cbn [nonTouchingLevels]. rewrite Hget.
    pose proof (nonTouchingLevel_inv (i - 1) existing prevSet (existing, []) Hprev)
      as Hlevel.
    replace (S (i - 1)) with i in Hlevel by lia.
    destruct (nonTouchingLevel allLoops prevSet (existing, [])) as [existing' ith].
    destruct Hlevel as (Hex' & Hnd' & Hith).
    { split; [by rewrite app_nil_r|]. by split. }
    cbn [fst snd] in Hex', Hnd', Hith.
    assert (Hset1 : Map_set i [] ((1, allLoops) :: levels)
                    = (1, allLoops) :: (levels ++ [(i, [])])).
    { cbn [Map_set]. destruct (Nat.eqb_spec 1 i) as [?|_]; [lia|].
      by rewrite Map_set_fresh. }
    rewrite Hset1.
    assert (Hset2 : Map_set i ith ((1, allLoops) :: (levels ++ [(i, [])]))
                    = (1, allLoops) :: (levels ++ [(i, ith)])).
    { cbn [Map_set]. destruct (Nat.eqb_spec 1 i) as [?|_]; [lia|].
      by rewrite Map_set_last. }
    rewrite Hset2.
    destruct ith as [|c ith].
    + exists levels. split; [|by subst existing].
      f_equal. unfold Map_delete.
      rewrite filter_cons_True by (simpl; lia).
      f_equal. by apply Map_delete_last.
    + apply IH; [lia| | |done|].
      * rewrite fmap_app, Hkeys.
        replace (S i - 2) with (S (i - 2)) by lia.
        rewrite seq_S. cbn [fmap list_fmap fst]. do 2 f_equal. lia.
      * rewrite Hex', Hex, fmap_app, concat_app, fmap_app. cbn [fmap list_fmap snd concat].
        by rewrite app_nil_r.
      * apply Forall_app. split; [done|]. by apply Forall_singleton.
Qed.

Lemma findNonTouching_sets_keys :
  ∃ m,
    findNonTouching allLoops = Return m
    ∧ NoDup (canonicalKey <$> concat m.*2)
    ∧ Forall (λ kv, Forall (nonTouchingSet allLoops kv.1) kv.2) m.
Proof.
  destruct (nonTouchingLevels_sets (length allLoops - 1) 2 [] [])
    as (levels & Hrun & Hnd & Hsets); [lia|done|done|constructor|done|].
  destruct (findNonTouching_shape allLoops) as (m & Hm & Hkeys & _).
  exists m. split; [done|].
  unfold findNonTouching in Hm. cbn [Map_set] in Hm. rewrite Hrun in Hm.
  cbn [bindR] in Hm. injection Hm as <-.
  unfold Map_delete. rewrite filter_cons_False by (simpl; intros Hne; by apply Hne).
  unfold Map_delete in Hkeys. rewrite filter_cons_False in Hkeys
    by (simpl; intros Hne; by apply Hne).
  fold (Map_delete 1 levels) in *.
  assert (Hnone : 1 ∉ (Map_delete 1 levels).*1).
  { rewrite Hkeys. intros Hin%elem_of_seq. lia. }
  assert (Heq : Map_delete 1 levels = levels); [|by rewrite Heq].
  apply Map_delete_notin. intros Hin. apply Hnone.
  (* the keys of [levels] are those of the map without key 1 *)
  clear -Hin Hrun. exfalso.
  revert Hrun Hin. generalize (length allLoops - 1). intros n Hrun Hin.
  destruct (nonTouchingLevels_levels n 2 allLoops [] []) as (lv & Hrun' & Hk & _);
    [lia|done|done|].
  rewrite Hrun in Hrun'. injection Hrun' as ->.
  rewrite Hk in Hin. apply elem_of_seq in Hin. lia.
Qed.
End Levels.

(** X6.  Every combination in level [k] of the map of [findNonTouching]
    is the concatenation of [k] loops of the cycle list of which no two
    share the end node of an edge. *)
Theorem findNonTouching_sets (allLoops : list (list Edge.t)) :
  ∃ m,
    findNonTouching allLoops = Return m
    ∧ ∀ k combinations c,
        (k, combinations) ∈ m → c ∈ combinations → nonTouchingSet allLoops k c.
Proof.
  destruct (findNonTouching_sets_keys allLoops) as (m & Hrun & _ & Hsets).
  exists m. split; [done|]. intros k combinations c Hk Hc.
  rewrite Forall_forall in Hsets. specialize (Hsets _ Hk).
  rewrite Forall_forall in Hsets. by apply Hsets.
Qed.

(** X7.  No combination is listed twice, in one level or in two: the
    canonical keys of all the combinations of the map, taken level by
    level, are all different. *)
Theorem findNonTouching_keys_distinct (allLoops : list (list Edge.t)) :
  ∃ m,
    findNonTouching allLoops = Return m
    ∧ NoDup (canonicalKey <$> concat m.*2)
    ∧ NoDup (concat m.*2).
Proof.
  destruct (findNonTouching_sets_keys allLoops) as (m & Hrun & Hnd & _).
  exists m. split; [done|]. split; [done|]. by eapply NoDup_fmap_1.
Qed.

(** ** The denominator of a graph with at most two loops *)

Lemma findNonTouching_touching_pair (L1 L2 : list Edge.t) (x : string) :
  x ∈ Edge.endNode <$> L1 → x ∈ Edge.endNode <$> L2 →
  findNonTouching [L1; L2] = Return [].
Proof.
  intros (e1 & -> & H1)%list_elem_of_fmap (e2 & Heq & H2)%list_elem_of_fmap.
  assert (Hself1 : touching L1 L1 = true).
  { apply (touching_true _ _ e1 H1). by apply list_elem_of_fmap_2. }
  assert (Hself2 : touching L2 L2 = true).
  { apply (touching_true _ _ e2 H2). by apply list_elem_of_fmap_2. }
  assert (H21 : touching L2 L1 = true).
  { apply (touching_true _ _ e2 H2). rewrite <- Heq. by apply list_elem_of_fmap_2. }
  assert (H12 : touching L1 L2 = true).
  { apply (touching_true _ _ e1 H1). rewrite Heq. by apply list_elem_of_fmap_2. }
  assert (Hinner : ∀ L, touching L1 L = true → touching L2 L = true →
            nonTouchingInner L [L1; L2] ([], []) = ([], [])).
  { intros L Ha Hb. cbn [nonTouchingInner fst snd].
    rewrite (bool_decide_eq_false_2 (canonicalKey (L1 ++ L) ∈ []))
      by apply not_elem_of_nil.
    rewrite Ha. cbn [negb].
    rewrite (bool_decide_eq_false_2 (canonicalKey (L2 ++ L) ∈ []))
      by apply not_elem_of_nil.
    by rewrite Hb. }
  unfold findNonTouching.
  cbn [length Nat.sub nonTouchingLevels Map_set Map_get Nat.eqb bindR nonTouchingLevel].
  rewrite (Hinner L1 Hself1 H21), (Hinner L2 H12 Hself2). reflexivity.
Qed.

Section FewLoops.
Context {Expression : Type} {engine : Engine Expression}.
Hypothesis laws : EngineLaws.

Local Lemma few_ring :
  ring_theory (constant 0) (constant 1) add multiply subtract
              (λ x, subtract (constant 0) x) (@eq Expression).
Proof using laws. exact (proj1 laws). Qed.

Add Ring few_ring_inst : few_ring.

Lemma gainProduct_app (a b : list Edge.t) :
  gainProduct (a ++ b) = multiply (gainProduct a) (gainProduct b).
Proof using laws.
  induction a as [|e a IH]; cbn [app gainProduct foldr].
  - fold (gainProduct b). ring.
  - fold (gainProduct (a ++ b)) (gainProduct a). rewrite IH. ring.
Qed.

Lemma calculateDenominator_delta (allLoops : list (list Edge.t))
    (nonTouching : Map (list (list Edge.t))) :
  calculateDenominator allLoops nonTouching
  = add (subtract (constant 1) (gainSum allLoops)) (levelSum nonTouching).
Proof using laws.
  unfold calculateDenominator. rewrite levels_acc, subtract_gains_acc by done. ring.
Qed.

(** X8.  Over an engine that is a commutative ring, the denominator that
    [findNonTouching] and [calculateDenominator] give is 1 for no loop,
    [1 - g] for one loop of gain [g], [1 - g1 - g2] for two loops that
    share the end node of an edge, and [1 - g1 - g2 + g1 * g2] for two
    loops that share none. *)
Theorem calculateDenominator_few_loops (L1 L2 : list Edge.t) :
  L1 ≠ [] → L2 ≠ [] →
  (findNonTouching [] = Return []
   ∧ calculateDenominator [] [] = constant 1)
  ∧ (findNonTouching [L1] = Return []
     ∧ calculateDenominator [L1] [] = subtract (constant 1) (gainProduct L1))
  ∧ ((∃ x, x ∈ Edge.endNode <$> L1 ∧ x ∈ Edge.endNode <$> L2) →
     findNonTouching [L1; L2] = Return []
     ∧ calculateDenominator [L1; L2] []
       = subtract (subtract (constant 1) (gainProduct L1)) (gainProduct L2))
  ∧ ((∀ x, x ∈ Edge.endNode <$> L1 → x ∉ Edge.endNode <$> L2) →
     ∃ nonTouching,
       findNonTouching [L1; L2] = Return nonTouching
       ∧ calculateDenominator [L1; L2] nonTouching
         = add (subtract (subtract (constant 1) (gainProduct L1)) (gainProduct L2))
               (multiply (gainProduct L1) (gainProduct L2))).
Proof using laws.
  intros H1 H2. split; [|split; [|split]].
  - split; [reflexivity|]. rewrite calculateDenominator_delta. cbn. ring.
  - split; [reflexivity|]. rewrite calculateDenominator_delta. cbn.
    fold (gainProduct L1). ring.
  - intros (x & Hx1 & Hx2). split; [by eapply findNonTouching_touching_pair|].
    rewrite calculateDenominator_delta. cbn.
    fold (gainProduct L1) (gainProduct L2). ring.
  - intros Hdisj. eexists. split.
    + apply findNonTouching_pair; [done..|]. intros x Hx2 Hx1. by apply (Hdisj x).
    + rewrite calculateDenominator_delta. cbn.
      fold (gainProduct L1) (gainProduct L2) (gainProduct (L2 ++ L1)).
      rewrite gainProduct_app. ring.
Qed.
End FewLoops.

(** ** The nodes of the residual subgraph *)

Lemma pruneFirst_sublist (id : string) (es : list Edge.t) :
  pruneFirst id es `sublist_of` es.
Proof.
  unfold pruneFirst. destruct (findIndex _ es); [apply sublist_delete|done].
Qed.

Lemma prunedEdges_sublist (h : store) (p : list loc) (es : list Edge.t) :
  prunedEdges h p es `sublist_of` es.
Proof.
  unfold prunedEdges. revert es. induction p as [|t p IH]; intros es; [done|].
  cbn [fold_left]. etrans; [apply IH|apply pruneFirst_sublist].
Qed.

(** Among edges with different destinations, the one removal leaves no
    edge that ends at the id. *)
Lemma pruneFirst_complete (id : string) (es : list Edge.t) (e : Edge.t) :
  NoDup (Edge.endNode <$> es) →
  e ∈ pruneFirst id es → Edge.endNode e ≠ id.
Proof.
  unfold pruneFirst. induction es as [|e0 es IH]; intros Hnd He.
  - by apply elem_of_nil in He.
  - cbn [fmap list_fmap] in Hnd. apply NoDup_cons in Hnd as [Hnew Hnd].
    cbn [findIndex] in He.
    destruct (String.eqb_spec (Edge.endNode e0) id) as [<-|Hne].
    + cbn in He. intros Heq. apply Hnew. rewrite <- Heq.
      by apply list_elem_of_fmap_2.
    + destruct (findIndex _ es) as [j|] eqn:Hfind; cbn in He.
      * apply elem_of_cons in He as [->|He]; [done|]. by apply IH.
      * apply elem_of_cons in He as [->|He]; [done|]. by apply IH.
Qed.

Lemma prunedEdges_complete (h : store) (p : list loc) (es : list Edge.t)
    (t : loc) (e : Edge.t) :
  NoDup (Edge.endNode <$> es) →
  t ∈ p → e ∈ prunedEdges h p es → Edge.endNode e ≠ Node.id (deref h t).
Proof.
  unfold prunedEdges. revert es. induction p as [|t0 p IH]; intros es Hnd Ht He.
  - by apply elem_of_nil in Ht.
  - cbn [fold_left] in He.
    assert (Hnd' : NoDup (Edge.endNode <$> pruneFirst (Node.id (deref h t0)) es)).
    { eapply sublist_NoDup; [exact Hnd|]. apply fmap_sublist, pruneFirst_sublist. }
    apply elem_of_cons in Ht as [->|Ht]; [|by apply (IH _ Hnd')].
    apply (pruneFirst_complete _ es); [done|].
    eapply elem_of_sublist; [exact He|]. apply (prunedEdges_sublist h p).
Qed.

Lemma prunedEdges_nil (h : store) (p : list loc) : prunedEdges h p [] = [].
Proof. unfold prunedEdges. induction p as [|t p IH]; [done|]. exact IH. Qed.

Lemma residualOf_lookup (h : store) (p : list loc) (b : loc) (ns : list loc)
    (i : nat) (n : loc) :
  ns !! i = Some n →
  (residualOf h p b ns).1 !! i
  = Some (Node.mk (Node.id (deref h n)) (Node.value (deref h n))
                  (prunedEdges h p (Edge.copy <$> Node.outgoingEdges (deref h n)))).
Proof.
  revert b i. induction ns as [|m rest IH]; intros b i Hi; [done|].
  cbn [residualOf].
  destruct (residualOf h p (S b) rest) as [objs sg] eqn:Hres.
  destruct i as [|i]; cbn in Hi.
  - injection Hi as ->. cbn [copyOf Node.outgoingEdges].
    destruct (Edge.copy <$> Node.outgoingEdges (deref h n)) eqn:Hout; cbn [fst].
    + rewrite prunedEdges_nil. unfold copyOf. by rewrite Hout.
    + done.
  - specialize (IH (S b) i Hi). rewrite Hres in IH.
    by destruct (Node.outgoingEdges (copyOf h m)).
Qed.

Lemma residualOf_subgraph_inv (h : store) (p : list loc) (b : loc) (ns : list loc)
    (x : loc) :
  x ∈ (residualOf h p b ns).2 →
  ∃ i n, x = b + i ∧ ns !! i = Some n ∧ Node.outgoingEdges (deref h n) ≠ [].
Proof.
  revert b. induction ns as [|m rest IH]; intros b Hx; cbn [residualOf] in Hx.
  { by apply elem_of_nil in Hx. }
  specialize (IH (S b)).
  destruct (residualOf h p (S b) rest) as [objs sg].
  assert (Hrest : x ∈ sg → ∃ i n, x = b + i ∧ (m :: rest) !! i = Some n
                            ∧ Node.outgoingEdges (deref h n) ≠ []).
  { intros (i & n & -> & Hi & Hn)%IH. exists (S i), n. split; [lia|done]. }
  cbn [copyOf Node.outgoingEdges] in Hx.
  destruct (Node.outgoingEdges (deref h m)) as [|e es] eqn:Hout; cbn in Hx; [auto|].
  apply elem_of_cons in Hx as [->|Hx]; [|auto].
  exists 0, m. split; [lia|]. split; [done|]. by rewrite Hout.
Qed.

(** X9.  What [subtractNodes] makes of the node at position [i] of the
    graph, for a path of resolved nodes: a new object with the id and the
    value of the node, whose edges are copies of edges of the node, in
    their order.  The object is among the nodes returned exactly when the
    node has an outgoing edge.  When no two edges of the node end at the
    same id, no edge of the object ends at the id of a node of the
    path. *)
Theorem subtractNodes_residual_node (h : store) (ns p : list loc)
    (i : nat) (n : loc) :
  Forall (λ n, n < length h) ns →
  Forall (λ t, t < length h) p →
  ns !! i = Some n →
  ∃ h' subgraph c,
    subtractNodes ns (Some <$> p) h = (h', Return subgraph)
    ∧ h' !! (length h + i) = Some c
    ∧ (length h + i ∈ subgraph ↔ Node.outgoingEdges (deref h n) ≠ [])
    ∧ Node.id c = Node.id (deref h n)
    ∧ Node.value c = Node.value (deref h n)
    ∧ Node.outgoingEdges c `sublist_of` (Edge.copy <$> Node.outgoingEdges (deref h n))
    ∧ (NoDup (Edge.endNode <$> Node.outgoingEdges (deref h n)) →
       ∀ t e, t ∈ p → e ∈ Node.outgoingEdges c →
              Edge.endNode e ≠ Node.id (deref h t)).
Proof.
  intros Hns Hp Hi. eexists _, _, _.
  split; [by apply subtractNodes_exact|].
  split.
  { rewrite lookup_app_r by lia.
    replace (length h + i - length h) with i by lia.
    by apply residualOf_lookup. }
  split; [|split; [done|split; [done|split]]]; cbn [Node.outgoingEdges].
  - split.
    + intros (j & m & Hj & Hm & Hout)%residualOf_subgraph_inv.
      assert (j = i) as -> by lia. congruence.
    + by apply (residualOf_subgraph h p (length h) ns i n).
  - apply prunedEdges_sublist.
  - intros Hnd t e Ht He.
    apply (prunedEdges_complete h p
             (Edge.copy <$> Node.outgoingEdges (deref h n)) t e); [|done..].
    rewrite <- list_fmap_compose.
    by replace (Edge.endNode ∘ Edge.copy) with Edge.endNode.
Qed.

Lemma subtractNodes_residual_node_witness :
  ∃ h' subgraph c,
    subtractNodes [0; 1; 2] path123 (chain "a" "b" "f" false) = (h', Return subgraph)
    ∧ h' !! 4 = Some c
    ∧ 4 ∈ subgraph
    ∧ Node.id c = "2"
    ∧ Node.outgoingEdges c = [].
Proof.
  destruct (subtractNodes_residual_node (chain "a" "b" "f" false) [0; 1; 2] [0; 1; 2] 1 1)
    as (h' & sg & c & Hrun & Hc & Hin & Hid & _ & _ & Hpruned).
  - repeat constructor.
  - repeat constructor.
  - reflexivity.
  - exists h', sg, c. split; [exact Hrun|]. split; [exact Hc|].
    split; [apply Hin; discriminate|]. split; [exact Hid|].
    vm_compute in Hrun. injection Hrun as <- <-.
    injection Hc as <-. reflexivity.
Defined.

(** ** How much is allocated *)

Lemma copyNodes_length (originalNodes acc : list loc) (h : store) :
  ∃ h' allnodes_copy,
    copyNodes originalNodes acc h = (h', Return allnodes_copy)
    ∧ length h' = length h + length originalNodes.
Proof.
  revert acc h. induction originalNodes as [|n rest IH]; intros acc h; cbn [copyNodes].
  - exists h, acc. split; [done|]. simpl. lia.
  - unfold bindM at 1. rewrite Node_copy_eq.
    destruct (IH (acc ++ [length h])
                 (h ++ [Node.mk (Node.id (deref h n)) (Node.value (deref h n))
                          (Edge.copy <$> Node.outgoingEdges (deref h n))]))
      as (h' & cs & -> & Hlen).
    exists h', cs. split; [done|]. rewrite Hlen, length_app. simpl. lia.
Qed.

Lemma forEachM_pruneEdge_length (n : loc) (nodesToSubtract : path) (h : store) :
  length (forEachM (pruneEdge n) nodesToSubtract h).1 = length h.
Proof.
  revert h. induction nodesToSubtract as [|nts rest IH]; intros h; cbn [forEachM];
    [done|].
  unfold bindM at 1.
  assert (Hone : length (pruneEdge n nts h).1 = length h).
  { unfold pruneEdge, set_outgoingEdges.
    destruct (Node.outgoingEdges (deref h n)); [done|].
    destruct nts; [|done]. destruct (findIndex _ _); [|done].
    cbn. by rewrite length_insert. }
  destruct (pruneEdge n nts h) as [h1 [[]| |]]; cbn [fst] in *; [|done..].
  by rewrite IH.
Qed.

Lemma subtractLoop_length (nodesToSubtract : path) (allnodes_copy subgraph : list loc)
    (h : store) :
  length (subtractLoop nodesToSubtract allnodes_copy subgraph h).1 = length h.
Proof.
  revert subgraph h. induction allnodes_copy as [|n rest IH]; intros subgraph h;
    cbn [subtractLoop]; [done|].
  unfold bindM at 1, readM. destruct (_ && _); [|apply IH].
  unfold bindM at 1.
  pose proof (forEachM_pruneEdge_length n nodesToSubtract h) as Hp.
  destruct (forEachM (pruneEdge n) nodesToSubtract h) as [h1 [[]| |]];
    cbn [fst] in *; [|done..].
  by rewrite IH.
Qed.

Lemma subtractNodes_length (originalNodes : list loc) (nodesToSubtract : path)
    (h : store) :
  length (subtractNodes originalNodes nodesToSubtract h).1
  = length h + length originalNodes.
Proof.
  unfold subtractNodes, bindM.
  destruct (copyNodes_length originalNodes [] h) as (h1 & cs & -> & Hlen).
  by rewrite subtractLoop_length.
Qed.

Section Allocation.
Context {Expression : Type} {engine : Engine Expression}.

Lemma cofactors_length_store (nodes : list loc) (paths : list path)
    (delta_k delta_k' : list Expression) (h h' : store) :
  cofactors nodes paths delta_k h = (h', Return delta_k') →
  length h' = length h + length paths * length nodes.
Proof.
  revert delta_k h. induction paths as [|p rest IH]; intros delta_k h; cbn [cofactors].
  - intros [= <- _]. simpl. lia.
  - unfold bindM at 1, cofactor, bindM at 1.
    pose proof (subtractNodes_length nodes p h) as Hlen.
    destruct (subtractNodes nodes p h) as [h1 [subgraph| |]]; cbn [fst] in Hlen;
      [|done..].
    unfold bindM at 1, readM.
    destruct (findAllLoops h1 subgraph) as [allLoops| |]; [|done..].
    unfold bindM at 1, readM.
    destruct (findNonTouching allLoops) as [nt| |]; [|done..].
    cbn [retM]. intros Hrun%IH. rewrite Hrun, Hlen. simpl. lia.
Qed.

(** X10.  [subtractNodes] allocates one object for every node of the
    graph, whatever the path, also when it ends on a [TypeError]; a call
    of [calculateNumerator] that returns has allocated one object for
    every node of the graph and every forward path. *)
Theorem calculateNumerator_allocation (start end_ : string) (nodes : list loc)
    (p : path) (h h' : store) (numer : option Expression) :
  length (subtractNodes nodes p h).1 = length h + length nodes
  ∧ (calculateNumerator start end_ nodes h = (h', Return numer) →
     ∃ paths,
       findForwardPaths (pathFuel nodes) h (findNode h nodes start)
         (findNode h nodes end_) nodes [] [] = Return paths
       ∧ length h' = length h + length paths * length nodes).
Proof.
  split; [apply subtractNodes_length|].
  rewrite calculateNumerator_eq.
  destruct (findForwardPaths _ _ _ _ _ _ _) as [paths| |]; [|done..].
  destruct (getForwardPathsLoopgains h paths) as [gains| |]; [|done..].
  destruct (cofactors nodes paths [] h) as [h1 [dk| |]] eqn:Hcof; [|done..].
  intros [= <- _]. exists paths. split; [done|].
  by eapply cofactors_length_store.
Qed.
End Allocation.

Lemma calculateNumerator_allocation_witness :
  length (calculateNumerator (engine := Z_engine) "1" "3" [0; 1; 2]
            (chain "a" "b" "f" false)).1 = 6.
Proof.
  destruct (proj2 (calculateNumerator_allocation (engine := Z_engine) "1" "3" [0; 1; 2]
                     [] (chain "a" "b" "f" false)
                     (calculateNumerator (engine := Z_engine) "1" "3" [0; 1; 2]
                        (chain "a" "b" "f" false)).1
                     (Some 9%Z)))
    as (paths & Hpaths & Hlen).
  - vm_compute. reflexivity.
  - vm_compute in Hpaths. injection Hpaths as <-. exact Hlen.
Defined.

(** ** The searches read the nodes of the graph only *)

Lemma find_id_same (h h' : store) (ls : list loc) (id : string) :
  (∀ l, l ∈ ls → deref h' l = deref h l) →
  List.find (λ x, String.eqb (Node.id (deref h' x)) id) ls
  = List.find (λ x, String.eqb (Node.id (deref h x)) id) ls.
Proof.
  induction ls as [|x ls IH]; intros Hsame; [done|]. cbn [List.find].
  rewrite Hsame by left. destruct (String.eqb _ id); [done|].
  apply IH. intros l Hl. apply Hsame. by right.
Qed.

Section SameNodes.
Variables (h h' : store) (nodes : list loc).
Hypothesis same : ∀ l, l ∈ nodes → deref h' l = deref h l.

Lemma findNode_same (id : string) : findNode h' nodes id = findNode h nodes id.
Proof using same. by apply find_id_same. Qed.

Lemma dfsEdges_same (rec rec' : loc → DfsState → result DfsState)
    (startId : string) (edges : list Edge.t) (st : DfsState) :
  (∀ v st0, v ∈ nodes → rec' v st0 = rec v st0) →
  dfsEdges rec' h' nodes startId edges st = dfsEdges rec h nodes startId edges st.
Proof using same.
  intros Hrec. revert st. induction edges as [|edge rest IH]; intros st; [done|].
  cbn [dfsEdges]. rewrite findNode_same.
  destruct (findNode h nodes (Edge.endNode edge)) as [v|] eqn:Hfind; [|apply IH].
  apply findNode_Some in Hfind as [Hv _]. rewrite (same v Hv).
  destruct (String.eqb _ startId); [apply IH|].
  destruct (negb _); [|apply IH].
  rewrite (Hrec v _ Hv). destruct (rec v _); cbn [bindR]; [apply IH|done..].
Qed.

Lemma dfsFindLoops_same (fuel : nat) (curr : loc) (startId : string) (st : DfsState) :
  curr ∈ nodes →
  dfsFindLoops fuel h' nodes curr startId st = dfsFindLoops fuel h nodes curr startId st.
Proof using same.
  revert curr st. induction fuel as [|fuel IH]; intros curr st Hcurr; [done|].
  rewrite !dfsFindLoops_S. cbv zeta. rewrite (same curr Hcurr).
  rewrite (dfsEdges_same (λ v, dfsFindLoops fuel h nodes v startId)
             (λ v, dfsFindLoops fuel h' nodes v startId)); [done|].
  intros v st0 Hv. by apply IH.
Qed.

Lemma findAllLoops_roots_same (fuel : nat) (roots : list loc) (st : DfsState) :
  (∀ r, r ∈ roots → r ∈ nodes) →
  findAllLoops_roots fuel h' nodes roots st = findAllLoops_roots fuel h nodes roots st.
Proof using same.
  revert st. induction roots as [|r roots IH]; intros st Hsub; [done|].
  cbn [findAllLoops_roots].
  rewrite dfsFindLoops_same, same by (apply Hsub; left).
  destruct (dfsFindLoops fuel h nodes r _ st); cbn [bindR]; [|done..].
  apply IH. intros r' Hr'. apply Hsub. by right.
Qed.

Lemma findAllLoops_same : findAllLoops h' nodes = findAllLoops h nodes.
Proof using same.
  unfold findAllLoops, findAllLoops_state. by rewrite findAllLoops_roots_same.
Qed.

Lemma forwardEdges_same (rec rec' : option loc → list path → path → result (list path))
    (edges : list Edge.t) (paths : list path) (currPath : path) :
  (∀ next ps cp, (∀ v, next = Some v → v ∈ nodes) → rec' next ps cp = rec next ps cp) →
  forwardEdges rec' h' nodes edges paths currPath
  = forwardEdges rec h nodes edges paths currPath.
Proof using same.
  intros Hrec. revert paths. induction edges as [|edge rest IH]; intros paths; [done|].
  cbn [forwardEdges]. rewrite findNode_same, Hrec.
  - destruct (rec _ paths currPath); cbn [bindR]; [apply IH|done..].
  - intros v Hv. by apply findNode_Some in Hv as [? _].
Qed.

Lemma findForwardPaths_same (fuel : nat) (start end_ : option loc)
    (paths : list path) (currPath : path) :
  (∀ v, start = Some v → v ∈ nodes) →
  findForwardPaths fuel h' start end_ nodes paths currPath
  = findForwardPaths fuel h start end_ nodes paths currPath.
Proof using same.
  revert start paths currPath.
  induction fuel as [|fuel IH]; intros start paths currPath Hstart; [done|].
  rewrite !findForwardPaths_S.
  destruct (bool_decide (start = end_)); [done|].
  destruct (bool_decide (start ∈ currPath)); [done|].
  destruct start as [s|]; [|done]. rewrite (same s) by by apply Hstart.
  destruct (_ <? 1)%nat; [done|].
  apply forwardEdges_same. intros next ps cp Hnext. by apply IH.
Qed.
End SameNodes.

Section AfterNumerator.
Context {Expression : Type} {engine : Engine Expression}.

(** X11.  What [calculateNumerator] allocates does not show in the
    graph: for a graph of live nodes, the cycles that [findAllLoops] finds
    and the forward paths that [findForwardPaths] finds are the same in
    the store it leaves as in the store it was given, whether it returned
    or not. *)
Theorem searches_unchanged_by_calculateNumerator (start end_ : string)
    (nodes : list loc) (h : store) (s e : option loc) :
  Forall (λ n, n < length h) nodes →
  (∀ v, s = Some v → v ∈ nodes) →
  findAllLoops (calculateNumerator start end_ nodes h).1 nodes = findAllLoops h nodes
  ∧ findForwardPaths (pathFuel nodes) (calculateNumerator start end_ nodes h).1
      s e nodes [] []
    = findForwardPaths (pathFuel nodes) h s e nodes [] [].
Proof.
  intros Hlive Hs.
  assert (Hsame : ∀ l, l ∈ nodes →
            deref (calculateNumerator start end_ nodes h).1 l = deref h l).
  { intros l Hl. rewrite Forall_forall in Hlive. specialize (Hlive l Hl).
    destruct (framed_calculateNumerator (length h) start end_ nodes h) as [_ Hst];
      [done|].
    unfold deref. by rewrite Hst. }
  split; [by apply findAllLoops_same|by apply findForwardPaths_same].
Qed.
End AfterNumerator.

Lemma searches_unchanged_by_calculateNumerator_witness :
  findAllLoops
    (calculateNumerator (engine := Z_engine) "1" "3" [0; 1; 2] twoSelfLoops).1
    [0; 1; 2]
  = findAllLoops twoSelfLoops [0; 1; 2].
Proof.
  apply (searches_unchanged_by_calculateNumerator (engine := Z_engine)
           "1" "3" [0; 1; 2] twoSelfLoops (Some 0) (Some 2)).
  - repeat constructor.
  - intros v [= <-]. apply list_elem_of_here.
Defined.

(** ** The entry points *)

Section EntryPointFacts.
Context {Expression : Type} {engine : Engine Expression}
        {presentation : Presentation Expression}.

(** When the start id resolves and no edge is without a destination,
    [calculateNumerator] returns a numerator. *)
Lemma calculateNumerator_resolved (start end_ : string) (nodes : list loc)
    (h : store) :
  is_Some (findNode h nodes start) → noDangling h nodes →
  ∃ h' numer, calculateNumerator start end_ nodes h = (h', Return (Some numer)).
Proof.
  intros [s Hs] Hnd. rewrite calculateNumerator_eq, Hs.
  apply findNode_Some in Hs as [Hin _].
  destruct (findForwardPaths_linked h nodes (findNode h nodes end_)
              (pathFuel nodes) s [] [] Hnd) as (paths & -> & Hl); [|done|done|].
  { unfold pathFuel. pose proof (offPath_le nodes []). lia. }
  cbn [app].
  destruct (getForwardPathsLoopgains_linked h paths Hl) as [gains Hg]. rewrite Hg.
  destruct (cofactors_return nodes paths [] h) as (h' & dk & Hd).
  { eapply Forall_impl; [exact Hl|]. apply linked_all_Some. }
  rewrite Hd. apply getForwardPathsLoopgains_length in Hg.
  apply cofactors_length in Hd. simpl in Hd.
  rewrite (proj2 (Nat.eqb_eq _ _)) by lia. by eexists _, _.
Qed.

(** X12.  [computeMasons] fails only where [calculateNumerator] fails:
    the cycles and the non-touching sets are always found, the store it
    leaves is the one [calculateNumerator] leaves, in which every object of
    the graph is as it was, and its result is that of
    [calculateNumerator] with the denominator and the two formulas added.
    It returns when the start id resolves and every edge ends at a node of
    the graph. *)
Theorem computeMasons_composition (nodes : list loc) (start end_ : string)
    (h : store) :
  ∃ allLoops nonTouching,
    findAllLoops h nodes = Return allLoops
    ∧ findNonTouching allLoops = Return nonTouching
    ∧ (computeMasons nodes start end_ h).1 = (calculateNumerator start end_ nodes h).1
    ∧ preserved h (computeMasons nodes start end_ h).1
    ∧ (computeMasons nodes start end_ h).2
      = (let* numer := (calculateNumerator start end_ nodes h).2 in
         match numer with
         | None => TypeError
         | Some numer =>
             let denom := calculateDenominator allLoops nonTouching in
             Return (Masons.mk numer denom
                       (Bode.mk (phase numer +:+ " - " +:+ phase denom)
                                ("20 * log10 ( (" +:+ magnitude numer +:+ ") / ("
                                   +:+ magnitude denom +:+ "))")))
         end)
    ∧ (is_Some (findNode h nodes start) → noDangling h nodes →
       ∃ tf, (computeMasons nodes start end_ h).2 = Return tf
             ∧ Masons.d tf = calculateDenominator allLoops nonTouching).
Proof.
  destruct (findAllLoops_total h nodes) as [allLoops Hloops].
  destruct (findNonTouching_shape allLoops) as (nt & Hnt & _).
  exists allLoops, nt. split; [done|]. split; [done|].
  assert (Heq : computeMasons nodes start end_ h
                = (let (h', r) := calculateNumerator start end_ nodes h in
                   (h', let* numer := r in
                        match numer with
                        | None => TypeError
                        | Some numer =>
                            let denom := calculateDenominator allLoops nt in
                            Return (Masons.mk numer denom
                                      (Bode.mk (phase numer +:+ " - " +:+ phase denom)
                                         ("20 * log10 ( (" +:+ magnitude numer
                                            +:+ ") / (" +:+ magnitude denom +:+ "))")))
                        end))).
  { unfold computeMasons, bindM, readM. rewrite Hloops. cbv beta iota.
    rewrite Hnt. cbv beta iota zeta.
    destruct (calculateNumerator start end_ nodes h) as [h' [[numer|]| |]]; done. }
  rewrite Heq.
  pose proof (framed_calculateNumerator (length h) start end_ nodes h (le_n _)) as Hfr.
  destruct (calculateNumerator start end_ nodes h) as [h' r] eqn:Hrun. cbn [fst snd] in *.
  split; [done|]. split; [by apply stable_preserved|]. split; [done|].
  intros Hstart Hnd.
  destruct (calculateNumerator_resolved start end_ nodes h Hstart Hnd)
    as (h1 & numer & Hret).
  rewrite Hrun in Hret. injection Hret as _ ->. cbn [bindR]. by eexists.
Qed.

Section LoopGainAlgebra.
Hypothesis laws : EngineLaws.

Local Lemma gain_ring :
  ring_theory (constant 0) (constant 1) add multiply subtract
              (λ x, subtract (constant 0) x) (@eq Expression).
Proof using laws. exact (proj1 laws). Qed.

Add Ring gain_ring_inst : gain_ring.

(** X13.  [computeLoopGain] returns for every graph, unresolved edges
    included.  The expression whose phase and magnitude it reports is the
    denominator less one, which over an engine that is a commutative ring
    is the sum of the levels of the non-touching map, with their signs,
    less the sum of the gains of the loops. *)
Theorem computeLoopGain_returns (h : store) (nodes : list loc) :
  ∃ allLoops nonTouching loopGain,
    findAllLoops h nodes = Return allLoops
    ∧ findNonTouching allLoops = Return nonTouching
    ∧ computeLoopGain h nodes
      = Return (LoopGain.mk (Bode.mk (phase loopGain) (bodeMag loopGain)))
    ∧ loopGain = subtract (calculateDenominator allLoops nonTouching) (constant 1)
    ∧ loopGain = subtract (levelSum nonTouching) (gainSum allLoops).
Proof using laws.
  destruct (findAllLoops_total h nodes) as [allLoops Hloops].
  destruct (findNonTouching_shape allLoops) as (nt & Hnt & _).
  exists allLoops, nt, (subtract (calculateDenominator allLoops nt) (constant 1)).
  split; [done|]. split; [done|].
  split; [unfold computeLoopGain; rewrite Hloops; cbn [bindR]; by rewrite Hnt|].
  split; [done|].
  rewrite calculateDenominator_delta by done. ring.
Qed.
End LoopGainAlgebra.
End EntryPointFacts.

Lemma computeMasons_composition_witness :
  ∃ tf,
    (computeMasons (engine := Z_engine) (presentation := Z_presentation)
       [0; 1; 2] "1" "3" (chain "a" "bb" "fffff" false)).2 = Return tf
    ∧ Masons.d tf = (-6)%Z.
Proof.
  destruct (computeMasons_composition (engine := Z_engine)
              (presentation := Z_presentation)
              [0; 1; 2] "1" "3" (chain "a" "bb" "fffff" false))
    as (allLoops & nt & Hloops & Hnt & _ & _ & _ & Hret).
  destruct Hret as (tf & Hrun & Hd).
  - vm_compute. by eexists.
  - unfold noDangling. apply (bool_decide_unpack _). vm_compute. exact I.
  - exists tf. split; [exact Hrun|]. rewrite Hd.
    vm_compute in Hloops. injection Hloops as <-.
    vm_compute in Hnt. injection Hnt as <-. reflexivity.
Defined.

Lemma computeLoopGain_returns_witness :
  computeLoopGain (engine := Z_engine) (presentation := Z_presentation)
    danglingGraph [0; 1]
  = Return (LoopGain.mk (Bode.mk "180" "1")).
Proof.
  destruct (computeLoopGain_returns (engine := Z_engine)
              (presentation := Z_presentation) Z_engine_laws danglingGraph [0; 1])
    as (allLoops & nt & lg & Hloops & Hnt & Hrun & Hlg & _).
  rewrite Hrun, Hlg.
  vm_compute in Hloops. injection Hloops as <-.
  vm_compute in Hnt. injection Hnt as <-. reflexivity.
Defined.

(** ** Copies of copies *)

Lemma Edge_copy_fixed (e : Edge.t) : constructorId e → Edge.copy e = e.
Proof. destruct e as [w s t i]. unfold constructorId. cbn. by intros ->. Qed.

Lemma Edge_copy_constructorId (e : Edge.t) : constructorId (Edge.copy e).
Proof. reflexivity. Qed.

(** X14.  [Node.prototype.copy] allocates one object and leaves the rest
    of the store alone.  The copy has the content of the node exactly when
    every edge of the node has the id that the constructor gives, and the
    copy of a copy always has the content of the copy. *)
Theorem Node_copy_content (h : store) (this : loc) :
  this < length h →
  ∃ h' copy,
    Node_copy this h = (h', Return copy)
    ∧ copy = length h
    ∧ h' = h ++ [deref h' copy]
    ∧ (deref h' copy = deref h this
       ↔ Forall constructorId (Node.outgoingEdges (deref h this)))
    ∧ ∃ h'' copy',
        Node_copy copy h' = (h'', Return copy')
        ∧ deref h'' copy' = deref h' copy.
Proof.
  intros Hlive. eexists _, _. split; [apply Node_copy_eq|]. split; [done|].
  rewrite deref_alloc. split; [done|]. split.
  - destruct (deref h this) as [nid nval nes]. cbn. split.
    + intros [= Hes]. apply Forall_forall. intros e He.
      assert (Hfix : Forall (λ e, Edge.copy e = e) nes).
      { clear -Hes. induction nes as [|e0 es IH]; [done|].
        injection Hes as He0 Hes. constructor; [done|by apply IH]. }
      rewrite Forall_forall in Hfix. rewrite <- (Hfix e He).
      apply Edge_copy_constructorId.
    + intros Hall. f_equal. rewrite <- (list_fmap_id nes) at 2.
      apply Forall_fmap_ext. eapply Forall_impl; [exact Hall|].
      intros e He. by apply Edge_copy_fixed.
  - eexists _, _. split; [apply Node_copy_eq|]. rewrite !deref_alloc. cbn.
    f_equal. rewrite <- list_fmap_compose. apply list_fmap_ext.
    intros _ e _. reflexivity.
Qed.

Lemma Node_copy_content_witness :
  ∃ h' copy,
    Node_copy 0 [parallelNode] = (h', Return copy)
    ∧ deref h' copy ≠ deref [parallelNode] 0.
Proof.
  destruct (Node_copy_content [parallelNode] 0) as (h' & c & Hrun & _ & _ & Hiff & _).
  - repeat constructor.
  - exists h', c. split; [exact Hrun|]. intros Heq%Hiff.
    apply Forall_cons in Heq as [_ Heq]. apply Forall_cons in Heq as [Heq _].
    discriminate Heq.
Defined.

(** ** The edges of a forward path *)

(** X15.  On a path in which every node has an edge to the next,
    [extractPathEdges] returns one edge for every node but the last: the
    first outgoing edge of the node that ends at the id of the next node
    of the path. *)
Theorem extractPathEdges_first_edges (h : store) (p : path) :
  linked h p →
  ∃ es,
    extractPathEdges h p = Return (Some <$> es)
    ∧ length es = length p - 1
    ∧ ∀ i e, es !! i = Some e →
        ∃ a b, p !! i = Some (Some a) ∧ p !! S i = Some (Some b)
               ∧ List.find (λ x, String.eqb (Edge.endNode x) (Node.id (deref h b)))
                           (Node.outgoingEdges (deref h a)) = Some e.
Proof.
  induction p as [|pn rest IH]; [by exists []|].
  intros [Hhead Htail]. destruct (IH Htail) as (es & Hes & Hlen & Hat).
  destruct rest as [|next rest]; [by exists []|].
  destruct pn as [a|]; [|done]. destruct next as [b|]; [|done].
  destruct Hhead as (e & Hin & Hend).
  cbn [extractPathEdges]. cbn [extractPathEdges] in Hes. rewrite Hes.
  destruct (Node.outgoingEdges (deref h a)) as [|e0 es0] eqn:Hout.
  { by apply elem_of_nil in Hin. }
  destruct (List.find (λ x, String.eqb (Edge.endNode x) (Node.id (deref h b)))
              (e0 :: es0)) as [pe|] eqn:Hfind.
  - exists (pe :: es). split; [done|]. split; [cbn in *; lia|].
    intros [|i] e' He'; cbn in He'.
    + injection He' as <-. exists a, b. rewrite Hout. by repeat split.
    + destruct (Hat i e' He') as (a' & b' & Ha & Hb & Hf). by exists a', b'.
  - exfalso. apply list_elem_of_In in Hin.
    pose proof (find_none _ _ Hfind e Hin) as Hno. cbv beta in Hno.
    by rewrite Hend, String.eqb_refl in Hno.
Qed.

Lemma extractPathEdges_first_edges_witness :
  extractPathEdges twoSelfLoops path123
  = Return [Some (Edge.new "a" "1" "2"); Some (Edge.new "b" "2" "3")].
Proof.
  destruct (extractPathEdges_first_edges twoSelfLoops path123) as (es & Hrun & _).
  - split; [|split; [|done]].
    + exists (Edge.new "a" "1" "2"). split; [apply list_elem_of_here|reflexivity].
    + exists (Edge.new "b" "2" "3"). split; [|reflexivity].
      apply list_elem_of_further, list_elem_of_further, list_elem_of_here.
  - rewrite Hrun. vm_compute in Hrun.
    destruct es as [|e1 [|e2 [|e3 es]]]; try discriminate Hrun.
    injection Hrun as <- <-. reflexivity.
Defined.

(** ** The numerator as a sum *)

Section NumeratorSum.
Context {Expression : Type} {engine : Engine Expression}.
Hypothesis laws : EngineLaws.

Local Lemma sum_ring :
  ring_theory (constant 0) (constant 1) add multiply subtract
              (λ x, subtract (constant 0) x) (@eq Expression).
Proof using laws. exact (proj1 laws). Qed.

Add Ring sum_ring_inst : sum_ring.

Lemma sumProducts_acc (forwardLoopgains delta_k : list Expression)
    (numer : Expression) :
  sumProducts forwardLoopgains delta_k numer
  = add numer (gainCofactorSum forwardLoopgains delta_k).
Proof using laws.
  revert delta_k numer. induction forwardLoopgains as [|f fs IH];
    intros [|d ds] numer; cbn [sumProducts]; unfold gainCofactorSum; cbn; try ring.
  rewrite IH. unfold gainCofactorSum. ring.
Qed.

(** X16.  Over an engine that is a commutative ring, the numerator that
    [calculateNumerator] returns is the sum, over the forward paths in
    the order of their enumeration, of the gain of the path times its
    cofactor; there are as many gains and as many cofactors as paths, and
    the gain of a path is the product of the weights of its edges. *)
Theorem calculateNumerator_sum (start end_ : string) (nodes : list loc)
    (h h' : store) (numer : Expression) :
  calculateNumerator start end_ nodes h = (h', Return (Some numer)) →
  ∃ paths forwardLoopgains delta_k,
    findForwardPaths (pathFuel nodes) h (findNode h nodes start)
      (findNode h nodes end_) nodes [] [] = Return paths
    ∧ getForwardPathsLoopgains h paths = Return forwardLoopgains
    ∧ cofactors nodes paths [] h = (h', Return delta_k)
    ∧ length forwardLoopgains = length paths
    ∧ length delta_k = length paths
    ∧ numer = gainCofactorSum forwardLoopgains delta_k
    ∧ ∀ i p g, paths !! i = Some p → forwardLoopgains !! i = Some g →
        ∃ es, extractPathEdges h p = Return (Some <$> es) ∧ g = gainProduct es.
Proof using laws.
  rewrite calculateNumerator_eq.
  destruct (findForwardPaths _ _ _ _ _ _ _) as [paths| |]; [|done..].
  destruct (getForwardPathsLoopgains h paths) as [gains| |] eqn:Hg; [|done..].
  destruct (cofactors nodes paths [] h) as [h1 [dk| |]] eqn:Hd; [|done..].
  pose proof (getForwardPathsLoopgains_length _ _ _ Hg) as Hlg.
  pose proof (cofactors_length _ _ _ _ _ _ Hd) as Hld. simpl in Hld.
  rewrite (proj2 (Nat.eqb_eq _ _)) by lia.
  intros [= <- <-]. exists paths, gains, dk. repeat (split; [done|]).
  split; [rewrite sumProducts_acc; ring|].
  clear -Hg laws. revert gains Hg.
  induction paths as [|p0 rest IH]; intros gains Hg i p g Hp Hgi; [done|].
  cbn [getForwardPathsLoopgains] in Hg.
  destruct (extractPathEdges h p0) as [pes| |] eqn:Hex; cbn [bindR] in Hg; [|done..].
  destruct (calculateLoopGain_from (constant 1) pes) as [g0| |] eqn:Hgain;
    cbn [bindR] in Hg; [|done..].
  destruct (getForwardPathsLoopgains h rest) as [gs| |]; cbn [bindR] in Hg; [|done..].
  injection Hg as <-.
  destruct i as [|i]; cbn in Hp, Hgi; [|by eapply IH].
  injection Hp as <-. injection Hgi as <-.
  assert (Hdef : ∃ es, pes = Some <$> es).
  { clear -Hgain. revert Hgain. generalize (constant 1).
    induction pes as [|[e|] pes IH]; intros ex Hgain; [by exists []| |done].
    cbn [calculateLoopGain_from] in Hgain. destruct (IH _ Hgain) as [es ->].
    by exists (e :: es). }
  destruct Hdef as [es ->]. exists es. split; [done|].
  rewrite calculateLoopGain_from_defined in Hgain. injection Hgain as <-.
  rewrite calculateLoopGain_from_acc by done. ring.
Qed.
End NumeratorSum.

Lemma calculateNumerator_sum_witness :
  ∃ forwardLoopgains delta_k,
    (calculateNumerator (engine := Z_engine) "1" "3" [0; 1; 2] twoSelfLoops).2
    = Return (Some (gainCofactorSum (engine := Z_engine) forwardLoopgains delta_k))
    ∧ length forwardLoopgains = 1 ∧ length delta_k = 1.
Proof.
  destruct (calculateNumerator_sum (engine := Z_engine) Z_engine_laws
              "1" "3" [0; 1; 2] twoSelfLoops
              (calculateNumerator (engine := Z_engine) "1" "3" [0; 1; 2] twoSelfLoops).1
              (-18)%Z)
    as (paths & gains & dk & Hpaths & _ & _ & Hlg & Hld & Hsum & _).
  - vm_compute. reflexivity.
  - exists gains, dk. rewrite <- Hsum.
    vm_compute in Hpaths. injection Hpaths as <-.
    split; [vm_compute; reflexivity|]. by split.
Defined.

Lemma calculateDenominator_few_loops_witness :
  (∃ nonTouching,
     findNonTouching [[Edge.new "f" "2" "2"]; [Edge.new "gg" "3" "3"]]
     = Return nonTouching
     ∧ calculateDenominator (engine := Z_engine)
         [[Edge.new "f" "2" "2"]; [Edge.new "gg" "3" "3"]] nonTouching
       = 6%Z)
  ∧ calculateDenominator (engine := Z_engine)
      [[Edge.new "f" "2" "2"]; [Edge.new "gg" "2" "2"]] []
    = (-6)%Z.
Proof.
  destruct (calculateDenominator_few_loops (engine := Z_engine) Z_engine_laws
              [Edge.new "f" "2" "2"] [Edge.new "gg" "3" "3"])
    as (_ & _ & _ & Hdisj); [discriminate..|].
  destruct (calculateDenominator_few_loops (engine := Z_engine) Z_engine_laws
              [Edge.new "f" "2" "2"] [Edge.new "gg" "2" "2"])
    as (_ & _ & Htouch & _); [discriminate..|].
  split.
  - destruct Hdisj as (nt & Hnt & Hd).
    + intros x Hx Hx'. cbn in Hx, Hx'.
      apply list_elem_of_singleton in Hx. apply list_elem_of_singleton in Hx'.
      subst x. discriminate Hx'.
    + exists nt. split; [exact Hnt|]. rewrite Hd. reflexivity.
  - destruct Htouch as [_ Hd].
    + exists "2". split; apply list_elem_of_here.
    + rewrite Hd. reflexivity.
Defined.
